(** * chrome-mcp-bridge: the relay's connection, authentication and
      request-correlation core

    A shallow embedding of the WebSocket side of the MCP server
    (the [index.ts] of the bridge): the start-up sequence, the handlers
    registered on every peer socket, and [sendCommandToExtension].

    The JavaScript runtime is single threaded: every handler runs to
    completion before the next event is taken.  A handler is therefore a
    function from the relay's state to the new state and the list of calls it
    made on the outside world; the interleaving of peers, timers and callers
    is the order of the events in a run. *)

From Stdlib Require Import Floats Ascii String.
From Stdlib Require Strings.Byte.
From stdpp Require Import gmap strings list pretty.

Set Warnings "-register-all".

(** ** JavaScript values, as far as the relay looks at them *)

Module Js.

(** What [JSON.parse] returns, plus [undefined], which a property read
    yields for a missing key.  An object is the list of its own
    properties (one pair per key). *)
Inductive JsVal :=
  | JUndefined
  | JNull
  | JBool (b : bool)
  | JNum (x : float)
  | JStr (s : string)
  | JArr (items : list JsVal)
  | JObj (fields : list (string * JsVal)).

(** [new Error(message)]. *)
Inductive JsError :=
  | Error (message : JsVal).

(** ToBoolean. *)
Definition truthy (v : JsVal) : bool :=
  match v with
  | JUndefined | JNull => false
  | JBool b => b
  | JNum x => negb (PrimFloat.eqb x 0%float || PrimFloat.is_nan x)
  | JStr s => negb (bool_decide (s = ""))
  | JArr _ | JObj _ => true
  end.

(** Reading a property of [null] or [undefined] throws a TypeError. *)
Definition nullish (v : JsVal) : bool :=
  match v with
  | JUndefined | JNull => true
  | _ => false
  end.

Fixpoint assoc {A} (key : string) (fields : list (string * A)) : option A :=
  match fields with
  | [] => None
  | (k, a) :: rest => if decide (k = key) then Some a else assoc key rest
  end.

(** [v.key] for a [v] that is not nullish.  None of the keys the relay
    reads ([type], [token], [requestId], [success], [data], [error]) is
    inherited from a prototype, so only objects answer. *)
Definition prop (v : JsVal) (key : string) : JsVal :=
  match v with
  | JObj fields => default JUndefined (assoc key fields)
  | _ => JUndefined
  end.

(** [v === s] for a string [s]. *)
Definition is_str (v : JsVal) (s : string) : bool :=
  match v with
  | JStr t => bool_decide (t = s)
  | _ => false
  end.

(** [a || b]. *)
Definition or_else (a b : JsVal) : JsVal := if truthy a then a else b.

End Js.
Export Js.

(** ** Start-up: command line, listener, token check *)

Module Startup.

(** [String.prototype.split] on a one-character separator. *)
Fixpoint split (sep : ascii) (s : string) : list string :=
  match s with
  | EmptyString => [EmptyString]
  | String c rest =>
      if decide (c = sep) then EmptyString :: split sep rest
      else match split sep rest with
           | [] => [String c EmptyString]
           | w :: ws => String c w :: ws
           end
  end.

Definition startsWith (s p : string) : bool := String.prefix p s.

(** [process.argv.slice(2)] *)
Definition args (argv : list string) : list string := drop 2 argv.

(** [args.find(arg => arg.startsWith('--token='))] *)
Definition tokenArg (argv : list string) : option string :=
  List.find (λ arg, startsWith arg "--token=") (args argv).

(** [tokenArg ? tokenArg.split('=')[1] : null]; [None] stands for [null]
    and for [undefined]. *)
Definition AUTH_TOKEN (argv : list string) : option string :=
  match tokenArg argv with
  | Some arg => split "="%char arg !! 1
  | None => None
  end.

(** [!AUTH_TOKEN] *)
Definition no_token (tok : option string) : bool :=
  match tok with
  | None => true
  | Some s => bool_decide (s = "")
  end.

Definition WS_PORT : N := 8765.

(** What the top level of the module does, statement by statement. *)
Inductive Action :=
  | NewWebSocketServer (port : N)       (* new WebSocketServer({ port }) *)
  | ConsoleError (line : string)
  | ProcessExit (code : Z)
  | WssOn (event : string)              (* wss.on(event, ...) *)
  | NewMcpServer
  | SetRequestHandler (schema : string)
  | Main.

Definition remediation : list Action :=
  [ ConsoleError "❌ ERROR: No authentication token provided!";
    ConsoleError "   Run: node generate-token.cjs to create a secure token";
    ConsoleError "   Then add it to your MCP config: --token=YOUR_TOKEN";
    ProcessExit 1 ].

Definition serve : list Action :=
  [ WssOn "listening"; WssOn "error"; WssOn "connection";
    NewMcpServer;
    SetRequestHandler "ListToolsRequestSchema";
    SetRequestHandler "CallToolRequestSchema";
    Main ].

(** The module body: the server object is constructed on the line
    commented "Start WebSocket server", the token is checked after it.
    [process.exit] ends the run: nothing after it is executed. *)
Definition boot (argv : list string) : list Action :=
  NewWebSocketServer WS_PORT
    :: (if no_token (AUTH_TOKEN argv) then remediation else serve).

(** A listener exists once the server object has been constructed. *)
Definition starts_listener (a : Action) : bool :=
  match a with
  | NewWebSocketServer _ => true
  | _ => false
  end.

(** Peers are served once a ["connection"] handler is registered. *)
Definition serves_peers (a : Action) : bool :=
  match a with
  | WssOn event => bool_decide (event = "connection")
  | _ => false
  end.

Definition exit_code (tr : list Action) : option Z :=
  match last tr with
  | Some (ProcessExit code) => Some code
  | _ => None
  end.

End Startup.

(** ** The relay's state *)

(** Object identities: a socket, a promise, a timer. *)
Abbreviation Socket := nat (only parsing).
Abbreviation Handle := nat (only parsing).

Inductive ReadyState := CONNECTING | OPEN | CLOSING | CLOSED.

#[global] Instance ReadyState_eq_dec : EqDecision ReadyState.
Proof. solve_decision. Defined.

(** Per connection: the [authenticated] variable of the ["connection"]
    closure, and the socket's own [readyState]. *)
Record SocketState := {
  authenticated : bool;
  readyState : ReadyState
}.

Inductive PromiseState :=
  | Pending
  | Fulfilled (value : JsVal)
  | Rejected (reason : JsError).

(** The two object literals [sendCommandToExtension] stores in the table:
    [{ resolve, reject }] of the promise, and the pair that clears the
    timeout before it calls them. *)
Inductive PendingRequest :=
  | Bare (promise : Handle)
  | ClearTimeoutThen (timeoutId : Handle) (promise : Handle).

(** The callback given to [setTimeout], by the variables it closes over. *)
Record Timer := {
  timer_requestId : string;
  timer_reject : Handle;
  timer_timeout : N
}.

Record Relay := {
  extensionSocket : option Socket;
  pendingRequests : gmap string PendingRequest;
  timers : gmap Handle Timer;
  promises : gmap Handle PromiseState;
  sockets : gmap Socket SocketState;
  fresh : Handle
}.

Definition set_extensionSocket (v : option Socket) (s : Relay) : Relay :=
  {| extensionSocket := v; pendingRequests := pendingRequests s;
     timers := timers s; promises := promises s; sockets := sockets s;
     fresh := fresh s |}.

Definition set_pendingRequests (v : gmap string PendingRequest) (s : Relay) : Relay :=
  {| extensionSocket := extensionSocket s; pendingRequests := v;
     timers := timers s; promises := promises s; sockets := sockets s;
     fresh := fresh s |}.

Definition set_timers (v : gmap Handle Timer) (s : Relay) : Relay :=
  {| extensionSocket := extensionSocket s; pendingRequests := pendingRequests s;
     timers := v; promises := promises s; sockets := sockets s;
     fresh := fresh s |}.

Definition set_promises (v : gmap Handle PromiseState) (s : Relay) : Relay :=
  {| extensionSocket := extensionSocket s; pendingRequests := pendingRequests s;
     timers := timers s; promises := v; sockets := sockets s;
     fresh := fresh s |}.

Definition set_sockets (v : gmap Socket SocketState) (s : Relay) : Relay :=
  {| extensionSocket := extensionSocket s; pendingRequests := pendingRequests s;
     timers := timers s; promises := promises s; sockets := v;
     fresh := fresh s |}.

Definition set_fresh (v : Handle) (s : Relay) : Relay :=
  {| extensionSocket := extensionSocket s; pendingRequests := pendingRequests s;
     timers := timers s; promises := promises s; sockets := sockets s;
     fresh := v |}.

(** The module's initial bindings: [extensionSocket = null], an empty map. *)
Definition initial : Relay :=
  {| extensionSocket := None; pendingRequests := ∅; timers := ∅;
     promises := ∅; sockets := ∅; fresh := 0 |}.

(** What a handler does to the outside world. *)
Inductive Exn := SyntaxError | TypeError.

Inductive LogArg :=
  | LogVal (v : JsVal)
  | LogExn (e : Exn).

Inductive Effect :=
  | ConsoleError (text : string) (rest : list LogArg)
  | WsSend (ws : Socket) (payload : JsVal)   (* ws.send(JSON.stringify(payload)) *)
  | WsClose (ws : Socket).                   (* ws.close() *)

(** An inbound frame, by what [JSON.parse(data.toString())] does on it. *)
Inductive Frame :=
  | Garbled                     (* JSON.parse throws *)
  | Parsed (message : JsVal).

(** ** Promises, timers, sockets *)

(** The [resolve] and [reject] of a promise act once: a settled promise
    stays as it is. *)
Definition settle (p : Handle) (o : PromiseState) (s : Relay) : Relay :=
  match promises s !! p with
  | Some Pending => set_promises (<[p := o]> (promises s)) s
  | _ => s
  end.

Definition clearTimeout (t : Handle) (s : Relay) : Relay :=
  set_timers (delete t (timers s)) s.

(** [pending.resolve(data)] *)
Definition resolve (pending : PendingRequest) (data : JsVal) (s : Relay) : Relay :=
  match pending with
  | Bare p => settle p (Fulfilled data) s
  | ClearTimeoutThen t p => settle p (Fulfilled data) (clearTimeout t s)
  end.

(** [pending.reject(error)] *)
Definition reject (pending : PendingRequest) (error : JsError) (s : Relay) : Relay :=
  match pending with
  | Bare p => settle p (Rejected error) s
  | ClearTimeoutThen t p => settle p (Rejected error) (clearTimeout t s)
  end.

Definition is_authenticated (s : Relay) (ws : Socket) : bool :=
  match sockets s !! ws with
  | Some σ => authenticated σ
  | None => false
  end.

Definition set_authenticated (ws : Socket) (b : bool) (s : Relay) : Relay :=
  set_sockets
    (alter (λ σ, {| authenticated := b; readyState := readyState σ |}) ws (sockets s)) s.

Definition set_readyState (ws : Socket) (r : ReadyState) (s : Relay) : Relay :=
  set_sockets
    (alter (λ σ, {| authenticated := authenticated σ; readyState := r |}) ws (sockets s)) s.

(** [ws.close()]: an open socket starts its closing handshake; the
    ["close"] event comes later, as an event of its own. *)
Definition ws_close (ws : Socket) (s : Relay) : Relay :=
  set_sockets
    (alter (λ σ, {| authenticated := authenticated σ;
                    readyState := if decide (readyState σ = OPEN) then CLOSING
                                  else readyState σ |}) ws (sockets s)) s.

(** [extensionSocket && extensionSocket.readyState === WebSocket.OPEN] *)
Definition connected (s : Relay) : option Socket :=
  match extensionSocket s with
  | None => None
  | Some ws =>
      match sockets s !! ws with
      | Some σ => if decide (readyState σ = OPEN) then Some ws else None
      | None => None
      end
  end.

(** [pendingRequests.get(key)]: the table has string keys only. *)
Definition get_pending (s : Relay) (key : JsVal) : option (string * PendingRequest) :=
  match key with
  | JStr rid => (λ pending, (rid, pending)) <$> pendingRequests s !! rid
  | _ => None
  end.

(** ** Wire envelopes the relay sends *)

Definition auth_response (success : bool) (text : string) : JsVal :=
  JObj [("type", JStr "auth_response"); ("success", JBool success);
        ("message", JStr text)].

Definition not_authenticated : JsVal :=
  JObj [("type", JStr "error"); ("message", JStr "Not authenticated")].

Definition command_envelope (id command : string) (params : JsVal) : JsVal :=
  JObj [("id", JStr id); ("command", JStr command); ("params", params)].

(** ** The handlers of a peer socket *)

Section Relay.

(** The secret the process was started with; fixed for its lifetime. *)
Variable AUTH_TOKEN : string.

(** [wss.on("connection", ws => ...)]: a new socket is open and its
    closure starts with [authenticated = false]. *)
Definition onConnection (ws : Socket) (s : Relay) : Relay * list Effect :=
  (set_sockets (<[ws := {| authenticated := false; readyState := OPEN |}]> (sockets s)) s,
   [ConsoleError "Extension attempting to connect..." []]).

(** [console.error("Received from extension:", message)] *)
Definition received (message : JsVal) : Effect :=
  ConsoleError "Received from extension:" [LogVal message].

(** The [catch] of the message handler. *)
Definition caught (e : Exn) (s : Relay) (done : list Effect) : Relay * list Effect :=
  (s, done ++ [ConsoleError "Error parsing message from extension:" [LogExn e]]).

(** The branch for [message.type === "response" && message.requestId]. *)
Definition onResponse (message : JsVal) (s : Relay) : Relay :=
  match get_pending s (prop message "requestId") with
  | Some (rid, pending) =>
      let s' :=
        if truthy (prop message "success")
        then resolve pending (prop message "data") s
        else reject pending
               (Error (or_else (prop message "error") (JStr "Unknown error"))) s in
      set_pendingRequests (delete rid (pendingRequests s')) s'
  | None => s
  end.

(** [ws.on("message", data => { try { ... } catch (error) { ... } })] *)
Definition onMessage (ws : Socket) (frame : Frame) (s : Relay) : Relay * list Effect :=
  match frame with
  | Garbled => caught SyntaxError s []
  | Parsed message =>
      let received := received message in
      if nullish message then caught TypeError s [received]
      else if is_str (prop message "type") "auth" then
        if is_str (prop message "token") AUTH_TOKEN then
          (set_extensionSocket (Some ws) (set_authenticated ws true s),
           [received;
            WsSend ws (auth_response true "Authentication successful");
            ConsoleError "Extension authenticated successfully" []])
        else
          (ws_close ws s,
           [received;
            WsSend ws (auth_response false "Invalid authentication token");
            ConsoleError "Authentication failed: invalid token" [];
            WsClose ws])
      else if negb (is_authenticated s ws) then
        (s,
         [received;
          ConsoleError "Rejecting message from unauthenticated connection" [];
          WsSend ws not_authenticated])
      else if is_str (prop message "type") "response"
              && truthy (prop message "requestId") then
        (onResponse message s, [received])
      else (s, [received])
  end.

(** [ws.on("close", ...)]: the socket is closed by then; the handler
    clears the slot. *)
Definition onClose (ws : Socket) (s : Relay) : Relay * list Effect :=
  (set_extensionSocket None (set_readyState ws CLOSED s),
   [ConsoleError "Extension disconnected" []]).

(** [ws.on("error", ...)] *)
Definition onError (ws : Socket) (s : Relay) : Relay * list Effect :=
  (s, [ConsoleError "WebSocket error:" []]).

(** ** Dispatch *)

(** [`${Date.now()}-${Math.random()}`]: [now] is the clock's reading in
    milliseconds, [random] the text the template literal gives for the
    random number. *)
Definition requestId (now : N) (random : string) : string :=
  pretty now +:+ "-" +:+ random.

Definition timeout_error (timeout : N) : JsError :=
  Error (JStr ("Request timeout after " +:+ pretty timeout +:+ "ms")).

Definition not_connected_error : JsError :=
  Error (JStr "Extension not connected").

(** [new Promise(executor)]: a fresh pending promise. *)
Definition new_promise (s : Relay) : Handle * Relay :=
  (fresh s,
   set_fresh (S (fresh s)) (set_promises (<[fresh s := Pending]> (promises s)) s)).

(** [setTimeout(callback, timeout)]: a fresh scheduled timer. *)
Definition setTimeout (cb : Timer) (s : Relay) : Handle * Relay :=
  (fresh s,
   set_fresh (S (fresh s)) (set_timers (<[fresh s := cb]> (timers s)) s)).

(** [sendCommandToExtension(command, params, timeout = 30000)], with the
    clock and the random number it reads.  Returns the promise. *)
Definition sendCommandToExtension (command : string) (params : JsVal)
    (timeout : option N) (now : N) (random : string) (s : Relay)
    : Handle * Relay * list Effect :=
  let timeout := default 30000%N timeout in
  let '(p, s) := new_promise s in
  match connected s with
  | None => (p, settle p (Rejected not_connected_error) s, [])
  | Some ws =>
      let id := requestId now random in
      let message := command_envelope id command params in
      let s := set_pendingRequests (<[id := Bare p]> (pendingRequests s)) s in
      let '(timeoutId, s) :=
        setTimeout {| timer_requestId := id; timer_reject := p;
                      timer_timeout := timeout |} s in
      let s := set_pendingRequests
                 (<[id := ClearTimeoutThen timeoutId p]> (pendingRequests s)) s in
      (p, s, [WsSend ws message])
  end.

(** The timer's callback; a timer that fired is no longer scheduled. *)
Definition onTimeout (t : Handle) (s : Relay) : Relay :=
  match timers s !! t with
  | None => s
  | Some cb =>
      let s := clearTimeout t s in
      let id := timer_requestId cb in
      match pendingRequests s !! id with
      | Some _ =>
          settle (timer_reject cb) (Rejected (timeout_error (timer_timeout cb)))
            (set_pendingRequests (delete id (pendingRequests s)) s)
      | None => s
      end
  end.

(** ** The event loop *)

Inductive Event :=
  | Connection (ws : Socket)
  | Message (ws : Socket) (frame : Frame)
  | Close (ws : Socket)
  | SocketError (ws : Socket)
  | TimerFired (t : Handle)
  | Call (command : string) (params : JsVal) (timeout : option N)
         (now : N) (random : string).

(** A socket that is not closed yet. *)
Definition live (s : Relay) (ws : Socket) : bool :=
  match sockets s !! ws with
  | Some σ => negb (bool_decide (readyState σ = CLOSED))
  | None => false
  end.

(** One turn of the loop; [None] when the event cannot occur in [s]
    (a frame on a socket that does not exist, a timer that is not
    scheduled). *)
Definition step (s : Relay) (e : Event) : option (Relay * list Effect) :=
  match e with
  | Connection ws =>
      match sockets s !! ws with
      | None => Some (onConnection ws s)
      | Some _ => None
      end
  | Message ws frame => if live s ws then Some (onMessage ws frame s) else None
  | Close ws => if live s ws then Some (onClose ws s) else None
  | SocketError ws => if live s ws then Some (onError ws s) else None
  | TimerFired t =>
      match timers s !! t with
      | Some _ => Some (onTimeout t s, [])
      | None => None
      end
  | Call command params timeout now random =>
      let '(_, s', out) := sendCommandToExtension command params timeout now random s in
      Some (s', out)
  end.

Fixpoint run (s : Relay) (es : list Event) : option (Relay * list Effect) :=
  match es with
  | [] => Some (s, [])
  | e :: es =>
      match step s e with
      | None => None
      | Some (s', out) =>
          match run s' es with
          | None => None
          | Some (s'', out') => Some (s'', out ++ out')
          end
      end
  end.

End Relay.

(** ** Reachable states and what holds in all of them *)

Definition reachable (AUTH_TOKEN : string) (s : Relay) : Prop :=
  ∃ es out, run AUTH_TOKEN initial es = Some (s, out).

(** The timer of a promise is the object allocated right after it.
    Every table entry is the wrapped pair of a promise that is still
    pending, and its timer is still scheduled; every scheduled timer belongs
    to a pending promise; handles in use are below the allocation mark. *)
Record Inv (s : Relay) : Prop := {
  inv_pending : ∀ rid pending,
    pendingRequests s !! rid = Some pending →
    rid ≠ "" ∧
    ∃ p ms, pending = ClearTimeoutThen (S p) p
            ∧ timers s !! S p = Some {| timer_requestId := rid; timer_reject := p;
                                        timer_timeout := ms |}
            ∧ promises s !! p = Some Pending;
  inv_timers : ∀ t cb,
    timers s !! t = Some cb →
    t = S (timer_reject cb) ∧ t < fresh s
    ∧ promises s !! timer_reject cb = Some Pending;
  inv_promises : ∀ p st, promises s !! p = Some st → p < fresh s
}.

(** What a socket or timer event can do to table, timers and promises:
    nothing, or retire one timer with the entry under its id and settle its
    promise, or drop a timer whose id has left the table. *)
Inductive Change (s s' : Relay) : Prop :=
  | Untouched :
      pendingRequests s' = pendingRequests s →
      timers s' = timers s →
      promises s' = promises s →
      fresh s' = fresh s →
      Change s s'
  | Retired t cb o :
      timers s !! t = Some cb →
      promises s !! timer_reject cb = Some Pending →
      pendingRequests s' = delete (timer_requestId cb) (pendingRequests s) →
      timers s' = delete t (timers s) →
      promises s' = <[timer_reject cb := o]> (promises s) →
      fresh s' = fresh s →
      Change s s'
  | Expired t :
      pendingRequests s' = pendingRequests s →
      timers s' = delete t (timers s) →
      promises s' = promises s →
      fresh s' = fresh s →
      Change s s'.

Definition is_call (e : Event) : bool :=
  match e with
  | Call _ _ _ _ _ => true
  | _ => false
  end.


(** An event that dispatches under the correlation id [rid]. *)
Definition generates (rid : string) (e : Event) : bool :=
  match e with
  | Call _ _ _ now random => bool_decide (requestId now random = rid)
  | _ => false
  end.



(** A text without the separator of the correlation id. *)
Fixpoint dashless (text : string) : bool :=
  match text with
  | EmptyString => true
  | String c rest => negb (bool_decide (c = "-"%char)) && dashless rest
  end.

(** ** Scenarios *)

Module Scenario.

Definition secret : string := "abc123".

Definition auth (token : string) : JsVal :=
  JObj [("type", JStr "auth"); ("token", JStr token)].

Definition reply_ok (rid : string) (data : JsVal) : JsVal :=
  JObj [("type", JStr "response"); ("requestId", JStr rid);
        ("success", JBool true); ("data", data)].

Definition reply_failed (rid : string) (error : string) : JsVal :=
  JObj [("type", JStr "response"); ("requestId", JStr rid);
        ("success", JBool false); ("error", JStr error)].

Definition state_after (es : list Event) : Relay :=
  match run secret initial es with
  | Some (s, _) => s
  | None => initial
  end.

Definition effects_of (es : list Event) : list Effect :=
  match run secret initial es with
  | Some (_, out) => out
  | None => []
  end.

(** A peer connects and authenticates. *)
Definition peer_up : list Event := [Connection 1; Message 1 (Parsed (auth secret))].

(** ... and two commands are dispatched, ["ping"] with one second and
    ["listTabs"] with the default timeout. *)
Definition ping : Event := Call "ping" (JObj []) (Some 1000%N) 1700000000000 "0.5".
Definition listTabs : Event := Call "listTabs" (JObj []) None 1700000000001 "0.25".

Definition ping_sent : list Event := peer_up ++ [ping].
Definition two_calls : list Event := peer_up ++ [ping; listTabs].

Definition id_A : string := requestId 1700000000000 "0.5".
Definition id_B : string := requestId 1700000000001 "0.25".

(** A second socket connects while the first is active. *)
Definition second_socket : list Event := two_calls ++ [Connection 2].

(** A stranger connects while the first peer is active, presents a wrong
    token, and its socket closes. *)
Definition stranger : list Event :=
  peer_up ++ [Connection 2; Message 2 (Parsed (auth "guess"))].

Definition stranger_closed : list Event := stranger ++ [Close 2].

(** Two calls in the same millisecond that draw the same random number. *)
Definition same_reading : Event :=
  Call "listTabs" (JObj []) None 1700000000000 "0.5".

Definition colliding : list Event := ping_sent ++ [same_reading].

End Scenario.

(** ** More of the code: the token generator *)

(** A text in which the character [c] does not occur. *)
Fixpoint free_of (c : ascii) (text : string) : bool :=
  match text with
  | EmptyString => true
  | String d rest => negb (bool_decide (d = c)) && free_of c rest
  end.

Module Token.

(** [Buffer.prototype.toString('hex')]: two lower-case digits per byte. *)
Definition hex_digit (n : N) : ascii :=
  match n with
  | 0 => "0" | 1 => "1" | 2 => "2" | 3 => "3" | 4 => "4" | 5 => "5"
  | 6 => "6" | 7 => "7" | 8 => "8" | 9 => "9" | 10 => "a" | 11 => "b"
  | 12 => "c" | 13 => "d" | 14 => "e" | _ => "f"
  end%char%N.

Definition hex_of_byte (b : Byte.byte) : string :=
  String (hex_digit (Byte.to_N b / 16)) (String (hex_digit (Byte.to_N b mod 16)) EmptyString).

Fixpoint toHex (bytes : list Byte.byte) : string :=
  match bytes with
  | [] => EmptyString
  | b :: rest => hex_of_byte b +:+ toHex rest
  end.

(** [crypto.randomBytes(32).toString('hex')], by the bytes drawn. *)
Definition generateToken (randomBytes : list Byte.byte) : string := toHex randomBytes.

(** The argument the generator prints for the MCP config:
    [`--token=${token}`]. *)
Definition config_arg (token : string) : string := "--token=" +:+ token.

(** Reading the digits back (used to show that no two byte sequences give
    the same token). *)
Definition digit_value (c : ascii) : N :=
  match c with
  | "0" => 0 | "1" => 1 | "2" => 2 | "3" => 3 | "4" => 4 | "5" => 5
  | "6" => 6 | "7" => 7 | "8" => 8 | "9" => 9 | "a" => 10 | "b" => 11
  | "c" => 12 | "d" => 13 | "e" => 14 | _ => 15
  end%char%N.

Fixpoint fromHex (text : string) : list Byte.byte :=
  match text with
  | String hi (String lo rest) =>
      default Byte.x00 (Byte.of_N (digit_value hi * 16 + digit_value lo)) :: fromHex rest
  | _ => []
  end.

End Token.

(** ** More of the code: the tool-call handler *)

(** The [name] of each entry of [tools], in order. *)
Definition tool_names : list string :=
  [ "browser_open_page"; "browser_close_page"; "browser_screenshot";
    "browser_scroll"; "browser_find"; "browser_get_current_tab";
    "browser_list_tabs"; "browser_click"; "browser_fill_form";
    "browser_get_page_content" ].

(** The [switch (name)]: the command and the parameters each case passes
    to [sendCommandToExtension]; [None] is the [default] case.  [args] is
    [request.params.arguments], [undefined] when the request has none. *)
Definition tool_command (name : string) (args : JsVal) : option (string * JsVal) :=
  if decide (name = "browser_open_page") then Some ("openPage", args)
  else if decide (name = "browser_close_page") then Some ("closePage", or_else args (JObj []))
  else if decide (name = "browser_screenshot") then Some ("screenshot", or_else args (JObj []))
  else if decide (name = "browser_scroll") then Some ("scroll", or_else args (JObj []))
  else if decide (name = "browser_find") then Some ("find", args)
  else if decide (name = "browser_get_current_tab") then Some ("getCurrentTab", JObj [])
  else if decide (name = "browser_list_tabs") then Some ("listTabs", JObj [])
  else if decide (name = "browser_click") then Some ("click", args)
  else if decide (name = "browser_fill_form") then Some ("fillForm", args)
  else if decide (name = "browser_get_page_content")
       then Some ("getPageContent", or_else args (JObj []))
  else None.

(** What the handler returns. *)
Inductive ToolResult :=
  | TextContent (text : JsVal)       (* { content: [{ type: "text", text }] } *)
  | ErrorContent (text : string)     (* the same with isError: true *)
  | ScreenshotGoesOn (args result : JsVal).
      (* the screenshot case past its cwd check: saving the file and building
         the image content, which is not modelled *)

(** The handler is [async]: it runs up to its [await] and is resumed when
    the awaited promise is settled. *)
Inductive Started :=
  | Replied (result : ToolResult)
  | Awaiting (promise : Handle).

(** [args?.saveToFile] *)
Definition saveToFile (args : JsVal) : bool :=
  if nullish args then false else truthy (prop args "saveToFile").

(** [!args.cwd || typeof args.cwd !== "string"] *)
Definition cwd_unusable (args : JsVal) : bool :=
  match prop args "cwd" with
  | JStr cwd => bool_decide (cwd = "")
  | _ => true
  end.

Section Tools.

(** [JSON.stringify(result, null, 2)] (a string, or [undefined] for
    [undefined]) and the conversion of a value to a string are the
    runtime's. *)
Variable JSON_stringify : JsVal → JsVal.
Variable ToString : JsVal → string.

(** [error.message] of [new Error(v)]. *)
Definition error_message (e : JsError) : string :=
  match e with
  | Error (JStr text) => text
  | Error v => ToString v
  end.

(** The [catch] of the handler. *)
Definition tool_error (e : JsError) : ToolResult :=
  ErrorContent ("Error: " +:+ error_message e).

(** The handler up to its [await]. *)
Definition onCallTool (name : string) (args : JsVal) (now : N) (random : string)
    (s : Relay) : Started * Relay * list Effect :=
  match tool_command name args with
  | Some (command, params) =>
      let '(p, s', out) := sendCommandToExtension command params None now random s in
      (Awaiting p, s', out)
  | None => (Replied (tool_error (Error (JStr ("Unknown tool: " +:+ name)))), s, [])
  end.

(** The handler from its [await] on, by the state of the awaited promise;
    [None] while the promise is pending. *)
Definition onCallTool_resumed (name : string) (args : JsVal) (o : PromiseState)
    : option ToolResult :=
  match o with
  | Pending => None
  | Rejected e => Some (tool_error e)
  | Fulfilled result =>
      if decide (name = "browser_screenshot") then
        if saveToFile args && cwd_unusable args
        then Some (tool_error
                     (Error (JStr "cwd parameter is required when saveToFile is true")))
        else Some (ScreenshotGoesOn args result)
      else Some (TextContent (JSON_stringify result))
  end.

End Tools.

(** ** More of the code: the extension's side of the protocol

    The background service worker ([extension/background.js]): its
    connection to the relay, the handler of the relay's frames, and the
    dispatch of commands.  The commands themselves drive the browser through
    the [chrome] API; they are taken as given. *)

Module Extension.

(** The functions [handleCommand] chooses from. *)
Inductive Command :=
  | openPage | closePage | takeScreenshot | scrollPage | findInPage
  | getCurrentTab | listTabs | clickElement | fillFormFields | getPageContent.

(** What a command function does: it returns [{ success: true, data }], or
    it throws, and [error.message] is what is reported. *)
Inductive Outcome :=
  | Done (data : JsVal)
  | Threw (message : JsVal).

(** The [switch (command)] of [handleCommand]. *)
Definition command_named (command : JsVal) : option Command :=
  match command with
  | JStr text =>
      if decide (text = "openPage") then Some openPage
      else if decide (text = "closePage") then Some closePage
      else if decide (text = "screenshot") then Some takeScreenshot
      else if decide (text = "scroll") then Some scrollPage
      else if decide (text = "find") then Some findInPage
      else if decide (text = "getCurrentTab") then Some getCurrentTab
      else if decide (text = "listTabs") then Some listTabs
      else if decide (text = "click") then Some clickElement
      else if decide (text = "fillForm") then Some fillFormFields
      else if decide (text = "getPageContent") then Some getPageContent
      else None
  | _ => None
  end.


(** The service worker's variables, the sockets it has created with their
    [readyState], and the storage callbacks that are still to come. *)
Record Ext := {
  ws : option Socket;
  reconnectInterval : option Handle;
  authToken : option string;
  authenticated : bool;
  created : gmap Socket ReadyState;
  saving : nat;
  next : nat
}.

Definition set_ws (v : option Socket) (x : Ext) : Ext :=
  {| ws := v; reconnectInterval := reconnectInterval x; authToken := authToken x;
     authenticated := authenticated x; created := created x; saving := saving x;
     next := next x |}.

Definition set_reconnectInterval (v : option Handle) (x : Ext) : Ext :=
  {| ws := ws x; reconnectInterval := v; authToken := authToken x;
     authenticated := authenticated x; created := created x; saving := saving x;
     next := next x |}.

Definition set_authToken (v : option string) (x : Ext) : Ext :=
  {| ws := ws x; reconnectInterval := reconnectInterval x; authToken := v;
     authenticated := authenticated x; created := created x; saving := saving x;
     next := next x |}.

Definition set_authenticated (v : bool) (x : Ext) : Ext :=
  {| ws := ws x; reconnectInterval := reconnectInterval x; authToken := authToken x;
     authenticated := v; created := created x; saving := saving x;
     next := next x |}.

Definition set_created (v : gmap Socket ReadyState) (x : Ext) : Ext :=
  {| ws := ws x; reconnectInterval := reconnectInterval x; authToken := authToken x;
     authenticated := authenticated x; created := v; saving := saving x;
     next := next x |}.

Definition set_saving (v : nat) (x : Ext) : Ext :=
  {| ws := ws x; reconnectInterval := reconnectInterval x; authToken := authToken x;
     authenticated := authenticated x; created := created x; saving := v;
     next := next x |}.

Definition set_next (v : nat) (x : Ext) : Ext :=
  {| ws := ws x; reconnectInterval := reconnectInterval x; authToken := authToken x;
     authenticated := authenticated x; created := created x; saving := saving x;
     next := v |}.

(** The worker as it is loaded, before [connectWebSocket()] runs. *)
Definition loaded (token : option string) : Ext :=
  {| ws := None; reconnectInterval := None; authToken := token;
     authenticated := false; created := ∅; saving := 0; next := 0 |}.

Inductive Did :=
  | Console (text : string)                (* console.log / warn / error *)
  | Send (sock : Socket) (payload : JsVal) (* ws.send(JSON.stringify(payload)) *)
  | Close (sock : Socket)                  (* ws.close() *)
  | StorageSet (token : option string)     (* chrome.storage.local.set *)
  | SendResponse (response : JsVal).       (* sendResponse to the popup *)

(** [ws && ws.readyState === WebSocket.OPEN] *)
Definition open_socket (x : Ext) : option Socket :=
  match ws x with
  | Some sock => if decide (created x !! sock = Some OPEN) then Some sock else None
  | None => None
  end.

Definition sendToServer (message : JsVal) (x : Ext) : list Did :=
  match open_socket x with
  | Some sock => [Send sock message]
  | None => [Console "WebSocket is not connected"]
  end.

(** [ws.close()] on a socket that is connecting or open. *)
Definition closing (sock : Socket) (x : Ext) : Ext :=
  set_created
    (alter (λ r, match r with CONNECTING | OPEN => CLOSING | _ => r end) sock (created x)) x.

(** [!!authToken] *)
Definition hasToken (x : Ext) : bool :=
  match authToken x with
  | Some token => negb (bool_decide (token = ""))
  | None => false
  end.

(** [connectWebSocket()]: a new socket, connecting, is put in [ws]. *)
Definition connectWebSocket (x : Ext) : Ext * list Did :=
  (set_next (S (next x))
     (set_ws (Some (next x)) (set_created (<[next x := CONNECTING]> (created x)) x)),
   [Console "Attempting to connect to MCP server..."]).

(** [ws.onopen] of any socket the worker created. *)
Definition onopen (x : Ext) : Ext * list Did :=
  let x := set_reconnectInterval None x in
  (x,
   Console "Connected to MCP server, attempting authentication..."
     :: match authToken x with
        | Some token =>
            if hasToken x
            then sendToServer (JObj [("type", JStr "auth"); ("token", JStr token)]) x
            else [Console "No auth token available - authentication will fail";
                  Console "Please set auth token in extension popup"]
        | None => [Console "No auth token available - authentication will fail";
                   Console "Please set auth token in extension popup"]
        end).

(** [ws.onclose] of any socket the worker created. *)
Definition onclose (x : Ext) : Ext * list Did :=
  let x := set_ws None x in
  (match reconnectInterval x with
   | Some _ => x
   | None => set_next (S (next x)) (set_reconnectInterval (Some (next x)) x)
   end,
   [Console "Disconnected from MCP server"]).

(** How the [try] block of [ws.onmessage] ends for a decoded message that
    is not [null]. *)
Inductive Ending :=
  | Finished
  | Throws                       (* [ws.close()] with [ws] null *)
  | Commanded (message : JsVal). (* [await handleCommand(message)] *)

Definition onmessage (message : JsVal) (x : Ext) : Ext * list Did * Ending :=
  let received := Console "Received message from server:" in
  if is_str (prop message "type") "auth_response" then
    if truthy (prop message "success") then
      (set_authenticated true x,
       [received; Console "✅ Authentication successful!"], Finished)
    else
      let x := set_authenticated false x in
      match ws x with
      | Some sock =>
          (closing sock x, [received; Console "❌ Authentication failed:"; Close sock],
           Finished)
      | None => (x, [received; Console "❌ Authentication failed:"], Throws)
      end
  else if negb (authenticated x) then
    (x, [received; Console "Not authenticated, ignoring message"], Finished)
  else (x, [received], Commanded message).

Section Commands.

(** The ten command functions, and the conversion of a value to a string
    in a template literal. *)
Variable perform : Command → JsVal → Outcome.
Variable ToString : JsVal → string.

Definition to_text (v : JsVal) : string :=
  match v with
  | JStr text => text
  | _ => ToString v
  end.

(** [handleCommand(message)] for a [message] that is not nullish: it
    never throws, whatever the command does. *)
Definition handleCommand (message : JsVal) : JsVal :=
  let command := prop message "command" in
  let params := prop message "params" in
  let outcome :=
    match command_named command with
    | Some getCurrentTab => perform getCurrentTab JUndefined
    | Some listTabs => perform listTabs JUndefined
    | Some c => perform c params
    | None => Threw (JStr ("Unknown command: " +:+ to_text command))
    end in
  match outcome with
  | Done data => JObj [("success", JBool true); ("data", data)]
  | Threw text => JObj [("success", JBool false); ("error", text)]
  end.



End Commands.

(** The popup's messages ([chrome.runtime.onMessage]). *)
Definition getStatus (x : Ext) : JsVal :=
  JObj [("connected",
         match ws x with
         | Some sock => JBool (bool_decide (created x !! sock = Some OPEN))
         | None => JNull
         end);
        ("authenticated", JBool (authenticated x));
        ("hasToken", JBool (hasToken x))].

Definition getToken (x : Ext) : JsVal :=
  JObj [("token", JStr (if hasToken x then default "" (authToken x) else ""))].

(** [setToken]: the variable is set and the token is stored; the rest
    happens in the storage callback. *)
Definition setToken (token : string) (x : Ext) : Ext * list Did :=
  (set_saving (S (saving x)) (set_authToken (Some token) x), [StorageSet (Some token)]).

(** The callback of [chrome.storage.local.set]. *)
Definition onTokenSaved (x : Ext) : Ext * list Did :=
  let '(x1, closes) :=
    match ws x with
    | Some sock => (closing sock x, [Close sock])
    | None => (x, [])
    end in
  let '(x2, out) := connectWebSocket (set_authenticated false x1) in
  (set_saving (pred (saving x2)) x2,
   Console "Auth token saved" :: closes ++ out
     ++ [SendResponse (JObj [("success", JBool true)])]).

Inductive Event :=
  | Load                       (* the worker starts: connectWebSocket() *)
  | Tick                       (* the reconnect interval fires *)
  | Opened (sock : Socket)
  | Closed (sock : Socket)
  | Message (sock : Socket) (message : JsVal)
  | PopupReconnect
  | PopupSetToken (token : string)
  | TokenSaved.

(** One turn of the worker's loop; [None] when the event cannot occur. *)
Definition step (x : Ext) (e : Event) : option (Ext * list Did) :=
  match e with
  | Load => Some (connectWebSocket x)
  | Tick =>
      match reconnectInterval x with
      | Some _ => Some (connectWebSocket x)
      | None => None
      end
  | Opened sock =>
      if decide (created x !! sock = Some CONNECTING)
      then Some (onopen (set_created (<[sock := OPEN]> (created x)) x))
      else None
  | Closed sock =>
      match created x !! sock with
      | Some CLOSED | None => None
      | Some _ => Some (onclose (set_created (<[sock := CLOSED]> (created x)) x))
      end
  | Message sock message =>
      match created x !! sock with
      | Some OPEN | Some CLOSING =>
          if nullish message then None
          else let '(x', out, _) := onmessage message x in Some (x', out)
      | _ => None
      end
  | PopupReconnect =>
      let '(x', out) := connectWebSocket x in
      Some (x', out ++ [SendResponse (JObj [("success", JBool true)])])
  | PopupSetToken token => Some (setToken token x)
  | TokenSaved =>
      match saving x with
      | 0 => None
      | S _ => Some (onTokenSaved x)
      end
  end.

Fixpoint run (x : Ext) (es : list Event) : option (Ext * list Did) :=
  match es with
  | [] => Some (x, [])
  | e :: es =>
      match step x e with
      | None => None
      | Some (x', out) =>
          match run x' es with
          | None => None
          | Some (x'', out') => Some (x'', out ++ out')
          end
      end
  end.

Definition is_send (d : Did) : bool :=
  match d with
  | Send _ _ => true
  | _ => false
  end.

(** [ws] holds [sock], which is still connecting. *)
Definition connecting (sock : Socket) (x : Ext) : Prop :=
  ws x = Some sock ∧ created x !! sock = Some CONNECTING.

End Extension.

(** ** Predicates for further properties of the relay *)

(** A frame that is an auth message with the secret. *)
Definition presents_secret (AUTH_TOKEN : string) (frame : Frame) : bool :=
  match frame with
  | Parsed message =>
      is_str (prop message "type") "auth" && is_str (prop message "token") AUTH_TOKEN
  | Garbled => false
  end.

(** An event in which no socket presents the secret. *)
Definition without_secret (AUTH_TOKEN : string) (e : Event) : bool :=
  match e with
  | Message _ frame => negb (presents_secret AUTH_TOKEN frame)
  | _ => true
  end.

(** The active slot names a socket that exists, has authenticated and is
    not closed. *)
Definition SlotOk (s : Relay) : Prop :=
  ∀ ws, extensionSocket s = Some ws →
        ∃ σ, sockets s !! ws = Some σ ∧ authenticated σ = true ∧ readyState σ ≠ CLOSED.

(** Nobody has authenticated and nothing has been dispatched. *)
Record Locked (s : Relay) : Prop := {
  locked_slot : extensionSocket s = None;
  locked_flags : ∀ ws, is_authenticated s ws = false;
  locked_table : pendingRequests s = ∅;
  locked_timers : timers s = ∅;
  locked_promises : ∀ p st, promises s !! p = Some st → st = Rejected not_connected_error
}.

(** What the relay says to a peer that has not authenticated. *)
Definition refusal (e : Effect) : bool :=
  match e with
  | WsSend _ (JObj [("type", JStr kind); ("success", JBool false); ("message", JStr _)]) =>
      bool_decide (kind = "auth_response")
  | WsSend _ (JObj [("type", JStr kind); ("message", JStr text)]) =>
      bool_decide (kind = "error") && bool_decide (text = "Not authenticated")
  | WsSend _ _ => false
  | _ => true
  end.

(** ** The wire between the two *)

(** What one side sends is stringified and parsed again by the other.
    [carries keys sent received]: the decoded value has, under each of the
    keys, what the value sent had. *)
Definition carries (keys : list string) (sent received : JsVal) : Prop :=
  Forall (λ key, prop received key = prop sent key) keys.

(** ** Further scenarios *)

Module Example.
Import Scenario.

(** A stranger tries a wrong token, a second socket sends a reply
    envelope without authenticating, and a command is dispatched. *)
Definition no_secret : list Event :=
  [Connection 1; Message 1 (Parsed (auth "guess")); Connection 2;
   Message 2 (Parsed (reply_ok id_A (JStr "pong"))); ping].

(** The relay with its peer up and [listTabs] dispatched. *)
Definition listTabs_sent : list Event := peer_up ++ [listTabs].

(** A screenshot call that asks for a file and names no directory. *)
Definition save_args : JsVal := JObj [("saveToFile", JBool true)].

Definition screenshot_sent : list Event :=
  peer_up ++ [Call "screenshot" save_args None 1700000000001 "0.25"].

(** A command line with the token in the middle. *)
Definition argv : list string :=
  ["node"; "index.js"; "--verbose"; "--token=abc=def"; "--token=zzz"].

Definition drawn : list Byte.byte := repeat Byte.x2a 32.

(** Stand-ins for the runtime's conversions and for the command
    functions. *)
Definition stringify (v : JsVal) : JsVal := v.
Definition to_string (v : JsVal) : string := "[object Object]".
Definition echo (c : Extension.Command) (params : JsVal) : Extension.Outcome :=
  Extension.Done (JArr [params]).

(** The worker after its socket to the relay has opened. *)
Definition worker_after (token : option string) (es : list Extension.Event) : Extension.Ext :=
  match Extension.run (Extension.loaded token) es with
  | Some (x, _) => x
  | None => Extension.loaded token
  end.


End Example.

(** * Properties *)

(** ** Start-up *)

Module StartupFacts.
Import Startup.

Lemma split_nonempty sep s : split sep s ≠ [].
Proof.
  destruct s as [|c rest]; simpl; [done|].
  case_decide; [done|]. by destruct (split sep rest).
Qed.

(** Without a [--token=] argument the secret is [null]. *)
Lemma AUTH_TOKEN_absent argv :
  tokenArg argv = None → AUTH_TOKEN argv = None.
Proof. unfold AUTH_TOKEN. by intros ->. Qed.

(** With no usable secret the module logs the remediation and exits with
    code 1; no ["connection"] handler is ever registered. *)
Lemma boot_no_token argv :
  no_token (AUTH_TOKEN argv) = true →
  boot argv = NewWebSocketServer WS_PORT :: remediation
  ∧ exit_code (boot argv) = Some 1%Z
  ∧ existsb serves_peers (boot argv) = false.
Proof. unfold boot. by intros ->. Qed.

(** With a secret the module goes on to serve and does not exit. *)
Lemma boot_with_token argv :
  no_token (AUTH_TOKEN argv) = false →
  boot argv = NewWebSocketServer WS_PORT :: serve
  ∧ exit_code (boot argv) = None
  ∧ existsb serves_peers (boot argv) = true.
Proof. unfold boot. by intros ->. Qed.

(** C5, as the code has it: the claim is that a process started without
    a non-empty secret exits with a non-zero code and a remediation message
    and never starts a listener.  The exit and the message are there, but
    the server object is constructed before the token is looked at: the
    first action of every start-up is the construction of the WebSocket
    server on port 8765, and only then come the three lines and
    [process.exit(1)]. *)
Theorem listener_started_before_token_check argv :
  no_token (AUTH_TOKEN argv) = true →
  boot argv = NewWebSocketServer 8765 :: remediation
  ∧ head (boot argv) = Some (NewWebSocketServer 8765)
  ∧ existsb starts_listener (boot argv) = true
  ∧ exit_code (boot argv) = Some 1%Z.
Proof.
  intros Hno. destruct (boot_no_token argv Hno) as (-> & _ & _). done.
Qed.

Lemma listener_started_before_token_check_witness :
  no_token (AUTH_TOKEN ["node"; "index.js"]) = true
  ∧ boot ["node"; "index.js"] = NewWebSocketServer 8765 :: remediation
  ∧ head (boot ["node"; "index.js"]) = Some (NewWebSocketServer 8765)
  ∧ existsb starts_listener (boot ["node"; "index.js"]) = true
  ∧ exit_code (boot ["node"; "index.js"]) = Some 1%Z.
Proof.
  split; [reflexivity|].
  apply (listener_started_before_token_check ["node"; "index.js"]).
  reflexivity.
Defined.

(** The same with an empty [--token=]. *)
Example boot_empty_token :
  boot ["node"; "index.js"; "--token="] = NewWebSocketServer 8765 :: remediation.
Proof. reflexivity. Qed.

End StartupFacts.

(** ** Promises, timers and the table: how the primitives act *)

Section Primitives.

Implicit Types (s : Relay) (p t : Handle) (o : PromiseState).

Lemma settle_pending p o s :
  promises s !! p = Some Pending →
  settle p o s = set_promises (<[p := o]> (promises s)) s.
Proof. unfold settle. by intros ->. Qed.

(** [settle] touches the promises only. *)
Lemma settle_frame p o s :
  extensionSocket (settle p o s) = extensionSocket s
  ∧ pendingRequests (settle p o s) = pendingRequests s
  ∧ timers (settle p o s) = timers s
  ∧ sockets (settle p o s) = sockets s
  ∧ fresh (settle p o s) = fresh s.
Proof. unfold settle. by repeat case_match. Qed.

(** A promise that is settled is never changed again. *)
Lemma settle_settled p q o st s :
  promises s !! p = Some st → st ≠ Pending →
  promises (settle q o s) !! p = Some st.
Proof.
  intros Hp Hst. unfold settle.
  destruct (promises s !! q) as [[]|] eqn:Hq; simpl; try done.
  destruct (decide (q = p)) as [->|Hne]; [congruence|].
  by rewrite lookup_insert_ne.
Qed.

(** Settling one promise leaves every other one alone. *)
Lemma settle_other p q o s :
  p ≠ q → promises (settle q o s) !! p = promises s !! p.
Proof.
  intros Hne. unfold settle. repeat case_match; simpl; try done.
  by rewrite lookup_insert_ne.
Qed.

Lemma is_str_true (v : JsVal) (text : string) :
  is_str v text = true → v = JStr text.
Proof.
  destruct v; simpl; try done. by intros ->%bool_decide_eq_true.
Qed.

Lemma requestId_nonempty now random : requestId now random ≠ "".
Proof. unfold requestId. by destruct (pretty now). Qed.

End Primitives.

(** ** What each handler computes *)

Section Handlers.

Variable AUTH_TOKEN : string.

Implicit Types (s : Relay) (ws : Socket) (p t : Handle) (message : JsVal).

(** On an authenticated socket a reply envelope reaches the table. *)
Lemma onMessage_response ws message s :
  is_authenticated s ws = true →
  is_str (prop message "type") "response" = true →
  truthy (prop message "requestId") = true →
  onMessage AUTH_TOKEN ws (Parsed message) s = (onResponse message s, [received message]).
Proof.
  intros Hauth Htype Hid. unfold onMessage.
  destruct message; try done. simpl in *.
  destruct (default JUndefined (assoc "type" fields)) as [| | | |ty| |]; try done.
  simpl in Htype. apply bool_decide_eq_true in Htype as ->. simpl.
  by rewrite Hauth, Hid.
Qed.

(** A reply whose id is in the table: the entry's promise is settled, its
    timer cleared, the entry deleted; nothing else moves. *)
Lemma onResponse_hit message rid t p s :
  prop message "requestId" = JStr rid →
  pendingRequests s !! rid = Some (ClearTimeoutThen t p) →
  promises s !! p = Some Pending →
  onResponse message s =
    {| extensionSocket := extensionSocket s;
       pendingRequests := delete rid (pendingRequests s);
       timers := delete t (timers s);
       promises :=
         <[p := if truthy (prop message "success")
                then Fulfilled (prop message "data")
                else Rejected (Error (or_else (prop message "error")
                                              (JStr "Unknown error")))]>
           (promises s);
       sockets := sockets s;
       fresh := fresh s |}.
Proof.
  intros Hid Hentry Hp. unfold onResponse, get_pending.
  rewrite Hid, Hentry. simpl.
  destruct (truthy (prop message "success")); simpl;
    unfold settle, clearTimeout; simpl; by rewrite Hp.
Qed.

(** A reply whose id is not in the table changes nothing. *)
Lemma onResponse_miss message s :
  (∀ rid, prop message "requestId" = JStr rid → pendingRequests s !! rid = None) →
  onResponse message s = s.
Proof.
  intros Hmiss. unfold onResponse, get_pending.
  destruct (prop message "requestId") as [| | | |rid| |]; try done.
  by rewrite (Hmiss rid eq_refl).
Qed.

(** No frame makes the handler touch the table, the timers or the
    promises, unless it is a reply on an authenticated socket. *)
Lemma onMessage_not_response ws frame s :
  (∀ message, frame = Parsed message →
     is_authenticated s ws = false
     ∨ is_str (prop message "type") "response" = false
     ∨ is_str (prop message "type") "auth" = true
     ∨ nullish message = true) →
  let s' := (onMessage AUTH_TOKEN ws frame s).1 in
  pendingRequests s' = pendingRequests s
  ∧ timers s' = timers s
  ∧ promises s' = promises s
  ∧ fresh s' = fresh s.
Proof.
  intros Hcase. destruct frame as [|message]; [done|].
  specialize (Hcase message eq_refl). unfold onMessage.
  destruct (nullish message) eqn:Hnull; [done|].
  destruct (is_str (prop message "type") "auth") eqn:Hauth.
  { by destruct (is_str (prop message "token") AUTH_TOKEN). }
  destruct (is_authenticated s ws) eqn:Hws; simpl; [|done].
  destruct Hcase as [?|[->|[?|?]]]; done.
Qed.

(** Connected: the promise is created pending, the wrapped pair is stored
    under the new id, the timer is scheduled, the envelope is sent. *)
Lemma sendCommandToExtension_connected command params timeout now random ws s :
  connected s = Some ws →
  sendCommandToExtension command params timeout now random s =
    (fresh s,
     {| extensionSocket := extensionSocket s;
        pendingRequests :=
          <[requestId now random := ClearTimeoutThen (S (fresh s)) (fresh s)]>
            (pendingRequests s);
        timers :=
          <[S (fresh s) := {| timer_requestId := requestId now random;
                              timer_reject := fresh s;
                              timer_timeout := default 30000%N timeout |}]>
            (timers s);
        promises := <[fresh s := Pending]> (promises s);
        sockets := sockets s;
        fresh := S (S (fresh s)) |},
     [WsSend ws (command_envelope (requestId now random) command params)]).
Proof.
  intros Hc. unfold sendCommandToExtension, new_promise, setTimeout. simpl.
  change (connected (set_fresh _ (set_promises _ s))) with (connected s).
  rewrite Hc. simpl. by rewrite insert_insert_eq.
Qed.

(** Not connected: the promise is rejected on the spot and nothing else
    happens. *)
Lemma sendCommandToExtension_disconnected command params timeout now random s :
  connected s = None →
  sendCommandToExtension command params timeout now random s =
    (fresh s,
     {| extensionSocket := extensionSocket s;
        pendingRequests := pendingRequests s;
        timers := timers s;
        promises := <[fresh s := Rejected not_connected_error]> (promises s);
        sockets := sockets s;
        fresh := S (fresh s) |},
     []).
Proof.
  intros Hc. unfold sendCommandToExtension, new_promise. simpl.
  change (connected (set_fresh _ (set_promises _ s))) with (connected s).
  rewrite Hc. unfold settle. simpl. rewrite lookup_insert_eq. simpl.
  by rewrite insert_insert_eq.
Qed.

(** A timer that finds its id in the table deletes the entry and rejects
    its promise. *)
Lemma onTimeout_hit t cb pending s :
  timers s !! t = Some cb →
  pendingRequests s !! timer_requestId cb = Some pending →
  promises s !! timer_reject cb = Some Pending →
  onTimeout t s =
    {| extensionSocket := extensionSocket s;
       pendingRequests := delete (timer_requestId cb) (pendingRequests s);
       timers := delete t (timers s);
       promises := <[timer_reject cb := Rejected (timeout_error (timer_timeout cb))]>
                     (promises s);
       sockets := sockets s;
       fresh := fresh s |}.
Proof.
  intros Ht Hentry Hp. unfold onTimeout. rewrite Ht. simpl. rewrite Hentry.
  unfold settle. simpl. by rewrite Hp.
Qed.

(** A timer whose id has left the table only disappears. *)
Lemma onTimeout_miss t cb s :
  timers s !! t = Some cb →
  pendingRequests s !! timer_requestId cb = None →
  onTimeout t s = set_timers (delete t (timers s)) s.
Proof. intros Ht Hentry. unfold onTimeout. rewrite Ht. simpl. by rewrite Hentry. Qed.

End Handlers.

(** ** The invariant *)

Section Invariant.

Variable AUTH_TOKEN : string.

Implicit Types (s : Relay) (ws : Socket) (p t : Handle).

Lemma Inv_initial : Inv initial.
Proof. split; intros ??; simpl; by rewrite lookup_empty. Qed.

(** The invariant reads the table, the timers, the promises and the
    allocation mark only. *)
Lemma Inv_ext s s' :
  pendingRequests s' = pendingRequests s →
  timers s' = timers s →
  promises s' = promises s →
  fresh s' = fresh s →
  Inv s → Inv s'.
Proof.
  intros Hq Ht Hp Hf [I1 I2 I3].
  split; rewrite ?Hq, ?Ht, ?Hp, ?Hf; done.
Qed.

(** Two entries never share a promise. *)
Lemma Inv_entries_apart s rid rid' p :
  Inv s →
  pendingRequests s !! rid = Some (ClearTimeoutThen (S p) p) →
  pendingRequests s !! rid' = Some (ClearTimeoutThen (S p) p) →
  rid = rid'.
Proof.
  intros [I1 _ _] H1 H2.
  destruct (I1 _ _ H1) as (_ & p1 & ms1 & [= <-] & Ht1 & _).
  destruct (I1 _ _ H2) as (_ & p2 & ms2 & [= <-] & Ht2 & _).
  congruence.
Qed.

(** A timer goes, and with it the entry under its id; its promise may
    become anything. *)
Lemma Inv_retire s t cb o :
  Inv s →
  timers s !! t = Some cb →
  Inv {| extensionSocket := extensionSocket s;
         pendingRequests := delete (timer_requestId cb) (pendingRequests s);
         timers := delete t (timers s);
         promises := <[timer_reject cb := o]> (promises s);
         sockets := sockets s;
         fresh := fresh s |}.
Proof.
  intros [I1 I2 I3] Ht.
  destruct (I2 _ _ Ht) as (Htp & Hlt & Hp). split; simpl.
  - intros rid' pending Hentry.
    apply lookup_delete_Some in Hentry as [Hne Hentry].
    destruct (I1 _ _ Hentry) as (Hrid & p' & ms & -> & Ht' & Hp').
    split; [done|]. exists p', ms. split; [done|].
    assert (S p' ≠ t) as Hpt.
    { intros Heq. rewrite Heq, Ht in Ht'. injection Ht' as Hcb. subst cb. simpl in *. congruence. }
    rewrite lookup_delete_ne by done. by rewrite lookup_insert_ne by lia.
  - intros t' cb' Hcb.
    apply lookup_delete_Some in Hcb as [Hne Hcb].
    destruct (I2 _ _ Hcb) as (Htp' & Hlt' & Hp').
    repeat split; [done..|]. by rewrite lookup_insert_ne by lia.
  - intros p' st Hst.
    destruct (decide (timer_reject cb = p')) as [<-|?]; [lia|].
    rewrite lookup_insert_ne in Hst by done. eauto.
Qed.

(** A timer goes whose id is no longer in the table. *)
Lemma Inv_expire s t cb :
  Inv s →
  timers s !! t = Some cb →
  pendingRequests s !! timer_requestId cb = None →
  Inv (set_timers (delete t (timers s)) s).
Proof.
  intros [I1 I2 I3] Ht Hgone. split; simpl; [| |done].
  - intros rid' pending Hentry.
    destruct (I1 _ _ Hentry) as (Hrid & p' & ms & -> & Ht' & Hp').
    split; [done|]. exists p', ms. repeat split; [|done].
    rewrite lookup_delete_ne; [done|].
    intros Heq. rewrite <- Heq, Ht in Ht'. injection Ht' as Hcb. subst cb.
    simpl in *. congruence.
  - intros t' cb' Hcb.
    apply lookup_delete_Some in Hcb as [Hne Hcb]. eauto.
Qed.

Lemma Inv_onTimeout s t : Inv s → Inv (onTimeout t s).
Proof.
  intros HI. destruct (timers s !! t) as [cb|] eqn:Ht.
  - destruct (pendingRequests s !! timer_requestId cb) as [pending|] eqn:Hentry.
    + rewrite (onTimeout_hit t cb pending s Ht Hentry).
      * by apply Inv_retire.
      * by destruct (inv_timers s HI t cb Ht) as (_ & _ & ?).
    + rewrite (onTimeout_miss t cb s Ht Hentry). by eapply Inv_expire.
  - unfold onTimeout. by rewrite Ht.
Qed.

Lemma Inv_onMessage s ws frame : Inv s → Inv (onMessage AUTH_TOKEN ws frame s).1.
Proof.
  intros HI.
  destruct frame as [|message]; [done|].
  destruct (is_authenticated s ws) eqn:Hws; cycle 1.
  { eapply Inv_ext; [..|exact HI]; apply onMessage_not_response; naive_solver. }
  destruct (is_str (prop message "type") "response") eqn:Hty; cycle 1.
  { eapply Inv_ext; [..|exact HI]; apply onMessage_not_response; naive_solver. }
  destruct (truthy (prop message "requestId")) eqn:Hid; cycle 1.
  { apply is_str_true in Hty. unfold onMessage.
    destruct (nullish message); [done|]. rewrite Hty. simpl. by rewrite Hws, Hid. }
  rewrite onMessage_response by done. simpl.
  destruct (prop message "requestId") as [| | | |rid| |] eqn:Hrid;
    try (by rewrite onResponse_miss by (intros ?; rewrite Hrid; done)).
  destruct (pendingRequests s !! rid) as [pending|] eqn:Hentry; cycle 1.
  { rewrite onResponse_miss; [done|]. intros ?. rewrite Hrid. by intros [= <-]. }
  destruct (inv_pending s HI _ _ Hentry) as (_ & p & ms & -> & Ht & Hp).
  rewrite (onResponse_hit message rid (S p) p s Hrid Hentry Hp).
  by apply (Inv_retire s (S p) _ _ HI Ht).
Qed.

Lemma Inv_sendCommandToExtension s command params timeout now random :
  Inv s → Inv (sendCommandToExtension command params timeout now random s).1.2.
Proof.
  intros [I1 I2 I3].
  destruct (connected s) as [ws|] eqn:Hc.
  - rewrite (sendCommandToExtension_connected _ _ _ _ _ ws) by done.
    split; simpl.
    + intros rid pending Hentry.
      apply lookup_insert_Some in Hentry as [[<- <-]|[Hne Hentry]].
      * split; [apply requestId_nonempty|].
        eexists _, _. split; [done|]. by rewrite !lookup_insert_eq.
      * destruct (I1 _ _ Hentry) as (Hrid & p' & ms & -> & Ht' & Hp').
        split; [done|]. exists p', ms. split; [done|].
        destruct (I2 _ _ Ht') as (_ & Hlt & _).
        by rewrite !lookup_insert_ne by lia.
    + intros t cb Hcb.
      apply lookup_insert_Some in Hcb as [[<- <-]|[Hne Hcb]]; simpl.
      * repeat split; [lia|]. by rewrite lookup_insert_eq.
      * destruct (I2 _ _ Hcb) as (Htp & Hlt & Hp').
        repeat split; [done|lia|]. by rewrite lookup_insert_ne by lia.
    + intros p st Hst.
      apply lookup_insert_Some in Hst as [[<- <-]|[Hne Hst]]; [lia|].
      apply I3 in Hst. lia.
  - rewrite sendCommandToExtension_disconnected by done.
    split; simpl.
    + intros rid pending Hentry.
      destruct (I1 _ _ Hentry) as (Hrid & p' & ms & -> & Ht' & Hp').
      split; [done|]. exists p', ms. repeat split; [done|].
      apply I3 in Hp' as Hlt. by rewrite lookup_insert_ne by lia.
    + intros t cb Hcb.
      destruct (I2 _ _ Hcb) as (Htp & Hlt & Hp').
      repeat split; [done|lia|]. by rewrite lookup_insert_ne by lia.
    + intros p st Hst.
      apply lookup_insert_Some in Hst as [[<- <-]|[Hne Hst]]; [lia|].
      apply I3 in Hst. lia.
Qed.

Lemma Inv_step s e s' out :
  Inv s → step AUTH_TOKEN s e = Some (s', out) → Inv s'.
Proof.
  intros HI Hstep. destruct e; simpl in Hstep.
  - destruct (sockets s !! ws); [done|].
    unfold onConnection in Hstep. simplify_eq. by eapply Inv_ext; [..|exact HI].
  - destruct (live s ws); [|done].
    pose proof (Inv_onMessage s ws frame HI) as HI'.
    destruct (onMessage AUTH_TOKEN ws frame s). by simplify_eq.
  - destruct (live s ws); [|done].
    unfold onClose in Hstep. simplify_eq. by eapply Inv_ext; [..|exact HI].
  - destruct (live s ws); [|done]. unfold onError in Hstep. by simplify_eq.
  - destruct (timers s !! t); [|done]. simplify_eq. by apply Inv_onTimeout.
  - pose proof (Inv_sendCommandToExtension s command params timeout now random HI) as HI'.
    destruct (sendCommandToExtension command params timeout now random s) as [[??]?].
    by simplify_eq.
Qed.

Lemma Inv_run es : ∀ s s' out,
  Inv s → run AUTH_TOKEN s es = Some (s', out) → Inv s'.
Proof.
  induction es as [|e es IH]; intros s s' out HI Hrun; simpl in Hrun.
  - by simplify_eq.
  - destruct (step AUTH_TOKEN s e) as [[s1 out1]|] eqn:Hstep; [|done].
    destruct (run AUTH_TOKEN s1 es) as [[s2 out2]|] eqn:Hrest; [|done].
    simplify_eq. eapply IH; [|done]. by eapply Inv_step.
Qed.

Lemma reachable_Inv s : reachable AUTH_TOKEN s → Inv s.
Proof. intros (es & out & Hrun). eapply Inv_run; [apply Inv_initial|done]. Qed.

End Invariant.

(** ** Replies are routed by id *)

Section Correlation.

Variable AUTH_TOKEN : string.

Implicit Types (s : Relay) (ws : Socket) (p t : Handle) (message : JsVal).

(** The heart of the routing: in a state where the invariant holds, a
    reply envelope on an authenticated socket whose id is in the table
    settles that entry's promise, clears that entry's timer, deletes that
    entry, and nothing else. *)
Lemma reply_routes s ws message rid pending :
  Inv s →
  is_authenticated s ws = true →
  prop message "type" = JStr "response" →
  prop message "requestId" = JStr rid →
  pendingRequests s !! rid = Some pending →
  ∃ p,
    pending = ClearTimeoutThen (S p) p
    ∧ promises s !! p = Some Pending
    ∧ onMessage AUTH_TOKEN ws (Parsed message) s =
        ({| extensionSocket := extensionSocket s;
            pendingRequests := delete rid (pendingRequests s);
            timers := delete (S p) (timers s);
            promises :=
              <[p := if truthy (prop message "success")
                     then Fulfilled (prop message "data")
                     else Rejected (Error (or_else (prop message "error")
                                                   (JStr "Unknown error")))]>
                (promises s);
            sockets := sockets s;
            fresh := fresh s |},
         [received message]).
Proof.
  intros HI Hws Hty Hid Hentry.
  destruct (inv_pending s HI _ _ Hentry) as (Hrid & p & ms & -> & Ht & Hp).
  exists p. do 2 (split; [done|]).
  rewrite onMessage_response; [|done|by rewrite Hty|].
  - by rewrite (onResponse_hit message rid (S p) p s Hid Hentry Hp).
  - rewrite Hid. simpl. by rewrite bool_decide_eq_false_2.
Qed.

(** C1. For any set of outstanding dispatches (any reachable state,
    whatever the order of the dispatches and of the replies that came
    before), a reply envelope with a given [requestId], arriving on an
    authenticated socket while an entry with that id is in the table,
    settles exactly that entry's promise: fulfilled with [data] when
    [success] is true, rejected with the error message (or "Unknown error"
    when there is none) when it is not.  The entry is removed and its
    timeout cleared; every other entry, promise and timer, the active
    socket and all sockets are as before. *)
Theorem reply_settles_only_its_request s ws message rid pending :
  reachable AUTH_TOKEN s →
  is_authenticated s ws = true →
  prop message "type" = JStr "response" →
  prop message "requestId" = JStr rid →
  pendingRequests s !! rid = Some pending →
  ∃ p s',
    onMessage AUTH_TOKEN ws (Parsed message) s = (s', [received message])
    ∧ pending = ClearTimeoutThen (S p) p
    ∧ promises s !! p = Some Pending
    ∧ promises s' !! p =
        Some (if truthy (prop message "success")
              then Fulfilled (prop message "data")
              else Rejected (Error (or_else (prop message "error")
                                            (JStr "Unknown error"))))
    ∧ (prop message "success" = JBool true →
       promises s' !! p = Some (Fulfilled (prop message "data")))
    ∧ (∀ text, prop message "success" = JBool false →
               prop message "error" = JStr text → text ≠ "" →
       promises s' !! p = Some (Rejected (Error (JStr text))))
    ∧ pendingRequests s' !! rid = None
    ∧ timers s' !! S p = None
    ∧ (∀ rid', rid' ≠ rid → pendingRequests s' !! rid' = pendingRequests s !! rid')
    ∧ (∀ p', p' ≠ p → promises s' !! p' = promises s !! p')
    ∧ (∀ t', t' ≠ S p → timers s' !! t' = timers s !! t')
    ∧ extensionSocket s' = extensionSocket s
    ∧ sockets s' = sockets s.
Proof.
  intros Hreach Hws Hty Hid Hentry.
  destruct (reply_routes s ws message rid pending) as (p & -> & Hp & ->);
    [by apply (reachable_Inv AUTH_TOKEN)|done..|].
  eexists p, _. split; [done|]. simpl.
  repeat split; try done.
  - by rewrite lookup_insert_eq.
  - intros ->. by rewrite lookup_insert_eq.
  - intros text -> -> Htext. rewrite lookup_insert_eq. unfold or_else. simpl.
    by rewrite bool_decide_eq_false_2.
  - by rewrite lookup_delete_eq.
  - by rewrite lookup_delete_eq.
  - intros rid' Hne. by rewrite lookup_delete_ne.
  - intros p' Hne. by rewrite lookup_insert_ne.
  - intros t' Hne. by rewrite lookup_delete_ne.
Qed.

End Correlation.

(** ** What one turn of the loop can do to the table, timers and promises *)

Section Frames.

Variable AUTH_TOKEN : string.

Implicit Types (s : Relay) (ws : Socket) (p t : Handle) (message : JsVal).

Lemma onMessage_change s ws frame :
  Inv s → Change s (onMessage AUTH_TOKEN ws frame s).1.
Proof.
  intros HI.
  destruct frame as [|message]; [by apply Untouched|].
  destruct (is_authenticated s ws) eqn:Hws; cycle 1.
  { apply Untouched; apply onMessage_not_response; naive_solver. }
  destruct (is_str (prop message "type") "response") eqn:Hty; cycle 1.
  { apply Untouched; apply onMessage_not_response; naive_solver. }
  destruct (truthy (prop message "requestId")) eqn:Hid; cycle 1.
  { apply is_str_true in Hty. unfold onMessage.
    destruct (nullish message); [by apply Untouched|].
    rewrite Hty. simpl. rewrite Hws, Hid. by apply Untouched. }
  rewrite onMessage_response by done. simpl.
  destruct (prop message "requestId") as [| | | |rid| |] eqn:Hrid;
    try (rewrite onResponse_miss by (intros ?; rewrite Hrid; done);
         by apply Untouched).
  destruct (pendingRequests s !! rid) as [pending|] eqn:Hentry; cycle 1.
  { rewrite onResponse_miss; [by apply Untouched|].
    intros ?. rewrite Hrid. by intros [= <-]. }
  destruct (inv_pending s HI _ _ Hentry) as (_ & p & ms & -> & Ht & Hp).
  rewrite (onResponse_hit message rid (S p) p s Hrid Hentry Hp).
  by eapply (Retired s _ (S p) _ _ Ht).
Qed.

Lemma onTimeout_change s t : Inv s → Change s (onTimeout t s).
Proof.
  intros HI. destruct (timers s !! t) as [cb|] eqn:Ht.
  - destruct (inv_timers s HI t cb Ht) as (_ & _ & Hp).
    destruct (pendingRequests s !! timer_requestId cb) as [pending|] eqn:Hentry.
    + rewrite (onTimeout_hit t cb pending s Ht Hentry Hp).
      by eapply (Retired _ _ t cb).
    + rewrite (onTimeout_miss t cb s Ht Hentry). by eapply (Expired _ _ t).
  - unfold onTimeout. rewrite Ht. by apply Untouched.
Qed.

Lemma step_change s e s' out :
  Inv s → step AUTH_TOKEN s e = Some (s', out) → is_call e = false → Change s s'.
Proof.
  intros HI Hstep Hcall. destruct e; simpl in Hstep; [..|done].
  - destruct (sockets s !! ws); [done|].
    unfold onConnection in Hstep. simplify_eq. by apply Untouched.
  - destruct (live s ws); [|done].
    pose proof (onMessage_change s ws frame HI) as Hc.
    destruct (onMessage AUTH_TOKEN ws frame s). by simplify_eq.
  - destruct (live s ws); [|done].
    unfold onClose in Hstep. simplify_eq. by apply Untouched.
  - destruct (live s ws); [|done].
    unfold onError in Hstep. simplify_eq. by apply Untouched.
  - destruct (timers s !! t); [|done]. simplify_eq. by apply onTimeout_change.
Qed.

(** What a call does, in one equation for both of its branches. *)
Lemma step_call s command params timeout now random s' out :
  step AUTH_TOKEN s (Call command params timeout now random) = Some (s', out) →
  (pendingRequests s' = pendingRequests s ∧ timers s' = timers s
   ∧ promises s' = <[fresh s := Rejected not_connected_error]> (promises s)
   ∧ fresh s' = S (fresh s))
  ∨ (pendingRequests s' =
       <[requestId now random := ClearTimeoutThen (S (fresh s)) (fresh s)]>
         (pendingRequests s)
     ∧ timers s' =
         <[S (fresh s) := {| timer_requestId := requestId now random;
                             timer_reject := fresh s;
                             timer_timeout := default 30000%N timeout |}]> (timers s)
     ∧ promises s' = <[fresh s := Pending]> (promises s)
     ∧ fresh s' = S (S (fresh s))).
Proof.
  simpl. intros Hstep. destruct (connected s) as [ws|] eqn:Hc.
  - rewrite (sendCommandToExtension_connected _ _ _ _ _ ws) in Hstep by done.
    simplify_eq. by right.
  - rewrite sendCommandToExtension_disconnected in Hstep by done.
    simplify_eq. by left.
Qed.

(** A scheduled timer keeps its callback until it is gone. *)
Lemma step_timer_stable s e s' out t cb :
  Inv s → step AUTH_TOKEN s e = Some (s', out) →
  timers s !! t = Some cb →
  timers s' !! t = Some cb ∨ timers s' !! t = None.
Proof.
  intros HI Hstep Ht.
  destruct (inv_timers s HI t cb Ht) as (_ & Hlt & _).
  destruct (is_call e) eqn:Hcall.
  - destruct e; try done.
    destruct (step_call _ _ _ _ _ _ _ _ Hstep) as [(_ & -> & _)|(_ & -> & _)];
      left; [done|]. by rewrite lookup_insert_ne by lia.
  - destruct (step_change s e s' out HI Hstep Hcall) as
      [_ -> _ _|t0 ? ? _ _ _ -> _ _|t0 _ -> _ _]; [by left|..];
      (destruct (decide (t0 = t)) as [->|?];
       [right; apply lookup_delete_eq|left; by rewrite lookup_delete_ne]).
Qed.



(** A timer that is gone does not come back: new timers get new
    handles. *)
Lemma step_timer_gone s e s' out t :
  Inv s → step AUTH_TOKEN s e = Some (s', out) →
  t < fresh s → timers s !! t = None →
  timers s' !! t = None ∧ t < fresh s'.
Proof.
  intros HI Hstep Hlt Ht.
  destruct (is_call e) eqn:Hcall.
  - destruct e; try done.
    destruct (step_call _ _ _ _ _ _ _ _ Hstep)
      as [(_ & -> & _ & ->)|(_ & -> & _ & ->)]; (split; [|lia]); [done|].
    by rewrite lookup_insert_ne by lia.
  - destruct (step_change s e s' out HI Hstep Hcall) as
      [_ -> _ ->|t0 ? ? _ _ _ -> _ ->|t0 _ -> _ ->]; (split; [|done]); [done|..];
      apply lookup_delete_None; by right.
Qed.

(** The same along a run. *)
Lemma run_timer_gone es : ∀ s s' out t,
  Inv s → run AUTH_TOKEN s es = Some (s', out) →
  t < fresh s → timers s !! t = None →
  timers s' !! t = None.
Proof.
  induction es as [|e es IH]; intros s s' out t HI Hrun Hlt Ht; simpl in Hrun.
  - by simplify_eq.
  - destruct (step AUTH_TOKEN s e) as [[s1 out1]|] eqn:Hstep; [|done].
    destruct (run AUTH_TOKEN s1 es) as [[s2 out2]|] eqn:Hrest; [|done].
    simplify_eq.
    destruct (step_timer_gone s e s1 out1 t HI Hstep Hlt Ht) as [Ht1 Hlt1].
    eapply IH; [|done..]. by eapply Inv_step.
Qed.

Lemma run_timer_stable es : ∀ s s' out t cb,
  Inv s → run AUTH_TOKEN s es = Some (s', out) →
  timers s !! t = Some cb →
  timers s' !! t = Some cb ∨ timers s' !! t = None.
Proof.
  induction es as [|e es IH]; intros s s' out t cb HI Hrun Ht; simpl in Hrun.
  - simplify_eq. by left.
  - destruct (step AUTH_TOKEN s e) as [[s1 out1]|] eqn:Hstep; [|done].
    destruct (run AUTH_TOKEN s1 es) as [[s2 out2]|] eqn:Hrest; [|done].
    simplify_eq.
    pose proof (Inv_step AUTH_TOKEN s e s1 out1 HI Hstep) as HI1.
    destruct (inv_timers s HI t cb Ht) as (_ & Hlt & _).
    destruct (step_timer_stable s e s1 out1 t cb HI Hstep Ht) as [Ht1|Ht1].
    + by eapply IH.
    + right. eapply run_timer_gone; [exact HI1|exact Hrest| |exact Ht1].
      destruct (is_call e) eqn:Hcall.
      * destruct e; try done.
        destruct (step_call _ _ _ _ _ _ _ _ Hstep)
          as [(_ & _ & _ & ->)|(_ & _ & _ & ->)]; lia.
      * by destruct (step_change s e s1 out1 HI Hstep Hcall) as
          [_ _ _ ->|? ? ? _ _ _ _ _ ->|? _ _ _ ->].
Qed.






End Frames.

(** ** Timeouts *)

Section Timeouts.

Variable AUTH_TOKEN : string.

Implicit Types (s : Relay) (ws : Socket) (p t : Handle) (message : JsVal).



End Timeouts.

(** ** Authentication and the active channel *)

Section Channel.

Variable AUTH_TOKEN : string.

Implicit Types (s : Relay) (ws : Socket) (p t : Handle) (message : JsVal).

(** The right token: the socket's flag is set, the socket becomes the
    active one, the success response is sent.  No socket is closed and no
    other socket's state is touched. *)
Lemma auth_accepted s ws message :
  prop message "type" = JStr "auth" →
  prop message "token" = JStr AUTH_TOKEN →
  onMessage AUTH_TOKEN ws (Parsed message) s =
    (set_extensionSocket (Some ws) (set_authenticated ws true s),
     [received message;
      WsSend ws (auth_response true "Authentication successful");
      ConsoleError "Extension authenticated successfully" []]).
Proof.
  intros Hty Htok. unfold onMessage.
  destruct message; try done. simpl in *. rewrite Hty, Htok. simpl.
  by rewrite bool_decide_eq_true_2.
Qed.

(** Any other token: the failure response is sent and [ws.close()] is
    called.  The handler itself does not write the slot. *)
Lemma auth_rejected s ws message :
  prop message "type" = JStr "auth" →
  is_str (prop message "token") AUTH_TOKEN = false →
  onMessage AUTH_TOKEN ws (Parsed message) s =
    (ws_close ws s,
     [received message;
      WsSend ws (auth_response false "Invalid authentication token");
      ConsoleError "Authentication failed: invalid token" [];
      WsClose ws]).
Proof.
  intros Hty Htok. unfold onMessage.
  destruct message; try done. simpl in *. rewrite Hty. simpl in *.
  by rewrite Htok.
Qed.

Lemma auth_accepted_state s ws σ :
  sockets s !! ws = Some σ →
  let s' := set_extensionSocket (Some ws) (set_authenticated ws true s) in
  extensionSocket s' = Some ws
  ∧ sockets s' !! ws = Some {| authenticated := true; readyState := readyState σ |}
  ∧ is_authenticated s' ws = true
  ∧ (∀ ws', ws' ≠ ws → sockets s' !! ws' = sockets s !! ws')
  ∧ pendingRequests s' = pendingRequests s
  ∧ timers s' = timers s
  ∧ promises s' = promises s.
Proof.
  intros Hσ. simpl. unfold is_authenticated. simpl.
  rewrite lookup_alter_eq, Hσ. simpl. repeat split.
  intros ws' Hne. by rewrite lookup_alter_ne.
Qed.

Lemma auth_rejected_state s ws σ :
  sockets s !! ws = Some σ →
  extensionSocket (ws_close ws s) = extensionSocket s
  ∧ sockets (ws_close ws s) !! ws =
      Some {| authenticated := authenticated σ;
              readyState := if decide (readyState σ = OPEN) then CLOSING
                            else readyState σ |}
  ∧ (∀ ws', ws' ≠ ws → sockets (ws_close ws s) !! ws' = sockets s !! ws')
  ∧ pendingRequests (ws_close ws s) = pendingRequests s
  ∧ timers (ws_close ws s) = timers s
  ∧ promises (ws_close ws s) = promises s.
Proof.
  intros Hσ. simpl. rewrite lookup_alter_eq, Hσ. simpl. repeat split.
  intros ws' Hne. by rewrite lookup_alter_ne.
Qed.

(** The ["close"] handler does not look at which socket closed: whatever
    the slot held, it is cleared.  Table, timers and promises are not
    touched, and only the closed socket's state changes. *)
Lemma onClose_any s ws :
  let s' := (onClose ws s).1 in
  extensionSocket s' = None
  ∧ pendingRequests s' = pendingRequests s
  ∧ timers s' = timers s
  ∧ promises s' = promises s
  ∧ fresh s' = fresh s
  ∧ (∀ ws', ws' ≠ ws → sockets s' !! ws' = sockets s !! ws')
  ∧ (onClose ws s).2 = [ConsoleError "Extension disconnected" []].
Proof.
  simpl. repeat split. intros ws' Hne. by rewrite lookup_alter_ne.
Qed.

Lemma connected_Some s ws :
  connected s = Some ws ↔
  extensionSocket s = Some ws
  ∧ ∃ σ, sockets s !! ws = Some σ ∧ readyState σ = OPEN.
Proof.
  unfold connected. split.
  - destruct (extensionSocket s) as [ws'|]; [|done].
    destruct (sockets s !! ws') as [σ|] eqn:Hσ; [|done].
    case_decide; [|done]. intros [= <-]. eauto.
  - intros (-> & σ & -> & Hopen). by rewrite decide_True.
Qed.

Lemma connected_None s :
  connected s = None ↔
  extensionSocket s = None
  ∨ ∃ ws, extensionSocket s = Some ws
          ∧ ∀ σ, sockets s !! ws = Some σ → readyState σ ≠ OPEN.
Proof.
  unfold connected. split.
  - destruct (extensionSocket s) as [ws'|]; [|by left].
    destruct (sockets s !! ws') as [σ|] eqn:Hσ.
    + case_decide; [done|]. intros _. right. exists ws'. split; [done|].
      intros σ' Heq. congruence.
    + intros _. right. exists ws'. split; [done|]. intros σ' Heq. congruence.
  - intros [->|(ws & -> & Hclosed)]; [done|].
    destruct (sockets s !! ws) as [σ|]; [|done].
    rewrite decide_False; [done|]. by apply Hclosed.
Qed.

End Channel.

(** ** The claims about single events *)

Section Events.

Variable AUTH_TOKEN : string.

Implicit Types (s : Relay) (ws : Socket) (p t : Handle) (message : JsVal).

(** C4. A dispatch attempted while there is no active socket, or while
    the active socket is not open, rejects its promise in the same turn
    with the error "Extension not connected"; it sends nothing (it makes no
    call on any socket at all), adds no entry to the table and schedules no
    timer. *)
Theorem dispatch_without_channel_is_refused s command params timeout now random :
  (extensionSocket s = None
   ∨ ∃ ws, extensionSocket s = Some ws
           ∧ ∀ σ, sockets s !! ws = Some σ → readyState σ ≠ OPEN) →
  ∃ s',
    sendCommandToExtension command params timeout now random s = (fresh s, s', [])
    ∧ promises s' !! fresh s = Some (Rejected (Error (JStr "Extension not connected")))
    ∧ pendingRequests s' = pendingRequests s
    ∧ timers s' = timers s
    ∧ extensionSocket s' = extensionSocket s
    ∧ sockets s' = sockets s
    ∧ ∀ p, p ≠ fresh s → promises s' !! p = promises s !! p.
Proof.
  intros Hno%connected_None.
  rewrite sendCommandToExtension_disconnected by done.
  eexists. split; [done|]. simpl.
  split; [by rewrite lookup_insert_eq|]. repeat split.
  intros p Hne. by rewrite lookup_insert_ne.
Qed.



(** A frame that decodes to [null]: reading [message.type] throws, the
    [catch] logs, nothing changes. *)
Lemma null_frame_is_logged_and_dropped s ws :
  onMessage AUTH_TOKEN ws (Parsed JNull) s =
    (s, [received JNull;
         ConsoleError "Error parsing message from extension:" [LogExn TypeError]]).
Proof. done. Qed.

(** C9. A frame that [JSON.parse] cannot decode is logged by the
    handler's [catch] and dropped: the state after it is the state before
    it (the socket and its flag, the slot, the table, promises and timers),
    nothing is sent or closed, and the loop goes on: a run that starts with
    such a frame is the run without it, with one more line in the log. *)
Theorem malformed_frame_is_logged_and_dropped s ws :
  onMessage AUTH_TOKEN ws Garbled s =
    (s, [ConsoleError "Error parsing message from extension:" [LogExn SyntaxError]])
  ∧ ∀ es,
      live s ws = true →
      run AUTH_TOKEN s (Message ws Garbled :: es) =
        (λ r, (r.1, ConsoleError "Error parsing message from extension:"
                      [LogExn SyntaxError] :: r.2))
          <$> run AUTH_TOKEN s es.
Proof.
  split; [done|]. intros es Hlive. simpl. rewrite Hlive.
  unfold caught. simpl.
  by destruct (run AUTH_TOKEN s es) as [[??]|].
Qed.

(** C10. [authenticated] belongs to the connection.  When a new socket
    authenticates it becomes the active one, and commands go to it and to
    no other socket; the socket it superseded keeps its flag, and a reply
    envelope that arrives on the old socket is still routed: it settles the
    pending request with its id and removes the entry. *)
Theorem superseded_socket_still_resolves s old new hello message rid pending :
  reachable AUTH_TOKEN s →
  old ≠ new →
  is_authenticated s old = true →
  is_Some (sockets s !! new) →
  prop hello "type" = JStr "auth" →
  prop hello "token" = JStr AUTH_TOKEN →
  prop message "type" = JStr "response" →
  prop message "requestId" = JStr rid →
  pendingRequests s !! rid = Some pending →
  ∃ s1 out1 p s2,
    onMessage AUTH_TOKEN new (Parsed hello) s = (s1, out1)
    ∧ extensionSocket s1 = Some new
    ∧ is_authenticated s1 new = true
    ∧ is_authenticated s1 old = true
    ∧ sockets s1 !! old = sockets s !! old
    ∧ (∀ command params timeout now random ws payload,
         WsSend ws payload ∈
           (sendCommandToExtension command params timeout now random s1).2 →
         ws = new)
    ∧ onMessage AUTH_TOKEN old (Parsed message) s1 = (s2, [received message])
    ∧ pending = ClearTimeoutThen (S p) p
    ∧ promises s1 !! p = Some Pending
    ∧ promises s2 !! p =
        Some (if truthy (prop message "success")
              then Fulfilled (prop message "data")
              else Rejected (Error (or_else (prop message "error")
                                            (JStr "Unknown error"))))
    ∧ pendingRequests s2 !! rid = None
    ∧ extensionSocket s2 = Some new.
Proof.
  intros Hreach Hne Hold [σ Hnew] Hhty Htok Hty Hid Hentry.
  pose proof (reachable_Inv AUTH_TOKEN s Hreach) as HI.
  pose proof (Inv_onMessage AUTH_TOKEN s new (Parsed hello) HI) as HI1.
  rewrite auth_accepted in HI1 by done. simpl in HI1.
  assert (is_authenticated
            (set_extensionSocket (Some new) (set_authenticated new true s)) old = true)
    as Hold1.
  { unfold is_authenticated in *. simpl. by rewrite lookup_alter_ne. }
  destruct (reply_routes AUTH_TOKEN _ old message rid pending HI1 Hold1 Hty Hid Hentry)
    as (p & -> & Hp & Hreply).
  eexists _, _, p, _. split; [by apply auth_accepted|].
  split; [done|].
  split; [by destruct (auth_accepted_state s new σ Hnew) as (_ & _ & ? & _)|].
  split; [done|].
  split; [simpl; by rewrite lookup_alter_ne|].
  split.
  { intros command params timeout now random ws payload Hin.
    destruct (connected (set_extensionSocket (Some new) (set_authenticated new true s)))
      as [ws'|] eqn:Hc.
    - rewrite (sendCommandToExtension_connected _ _ _ _ _ ws') in Hin by done.
      apply connected_Some in Hc as [[= ->] _]. simpl in Hin.
      apply list_elem_of_singleton in Hin. by simplify_eq.
    - rewrite sendCommandToExtension_disconnected in Hin by done. simpl in Hin.
      by apply not_elem_of_nil in Hin. }
  split; [exact Hreply|]. split; [done|]. split; [exact Hp|]. simpl.
  split; [by rewrite lookup_insert_eq|].
  split; [by rewrite lookup_delete_eq|done].
Qed.

End Events.

(** ** Correlation ids *)

Section Ids.

Lemma pretty_N_char_no_dash (x : N) : pretty_N_char x ≠ "-"%char.
Proof. unfold pretty_N_char. by repeat case_match. Qed.

Lemma pretty_N_go_dashless (x : N) : ∀ acc,
  dashless acc = true → dashless (pretty_N_go x acc) = true.
Proof.
  induction (N.lt_wf_0 x) as [x _ IH]; intros acc Hacc.
  destruct (decide (x = 0)%N) as [->|Hpos].
  - by rewrite pretty_N_go_0.
  - rewrite pretty_N_go_step by lia. apply IH.
    + apply N.div_lt; lia.
    + simpl. rewrite Hacc, bool_decide_eq_false_2; [done|].
      apply pretty_N_char_no_dash.
Qed.

(** The clock's reading is printed in digits only. *)
Lemma pretty_N_dashless (x : N) : dashless (pretty x) = true.
Proof.
  unfold pretty, pretty_N. case_decide; [done|]. by apply pretty_N_go_dashless.
Qed.

(** The first dash of an id separates its two components. *)
Lemma dash_separates (a : string) : ∀ b r r',
  dashless a = true → dashless b = true →
  a +:+ "-" +:+ r = b +:+ "-" +:+ r' → a = b ∧ r = r'.
Proof.
  induction a as [|c a IH]; intros [|d b] r r' Ha Hb Heq; simpl in *.
  - by simplify_eq.
  - injection Heq as <- _. by rewrite bool_decide_eq_true_2 in Hb.
  - injection Heq as -> _. by rewrite bool_decide_eq_true_2 in Ha.
  - apply andb_true_iff in Ha as [_ Ha]. apply andb_true_iff in Hb as [_ Hb].
    injection Heq as -> Heq. by destruct (IH b r r' Ha Hb Heq) as [-> ->].
Qed.

Lemma requestId_inj now random now' random' :
  requestId now random = requestId now' random' →
  now = now' ∧ random = random'.
Proof.
  unfold requestId. intros Heq.
  apply dash_separates in Heq as [Hnow ->]; [|apply pretty_N_dashless..].
  split; [|done]. by apply (inj pretty).
Qed.

(** C8, as the code has it.  The id of a dispatch is the clock's reading
    in decimal, a dash, and the random number; so two dispatches get the
    same id exactly when they read the same millisecond and draw the same
    random number.  The dispatch stores its entry under that id without
    asking whether the id is in the table (whatever was there is replaced),
    and leaves the entries under every other id as they were: the table
    has one entry per id, and the ids of outstanding requests are distinct
    as long as no two of them share both components. *)
Theorem ids_differ_unless_time_and_random_coincide now random now' random' :
  requestId now random = pretty now +:+ "-" +:+ random
  ∧ (requestId now random = requestId now' random' ↔ now = now' ∧ random = random')
  ∧ ∀ s ws command params timeout,
      connected s = Some ws →
      ∃ s',
        sendCommandToExtension command params timeout now random s =
          (fresh s, s',
           [WsSend ws (command_envelope (requestId now random) command params)])
        ∧ pendingRequests s' !! requestId now random =
            Some (ClearTimeoutThen (S (fresh s)) (fresh s))
        ∧ ∀ rid, rid ≠ requestId now random →
                 pendingRequests s' !! rid = pendingRequests s !! rid.
Proof.
  split; [done|]. split.
  - split; [apply requestId_inj|]. by intros [-> ->].
  - intros s ws command params timeout Hc.
    rewrite (sendCommandToExtension_connected _ _ _ _ _ ws) by done.
    eexists. split; [done|]. simpl.
    split; [by rewrite lookup_insert_eq|].
    intros rid Hne. by rewrite lookup_insert_ne.
Qed.

End Ids.

(** ** The scenarios, run *)

Section Runs.

Import Scenario.

Lemma state_after_reachable es :
  run secret initial es ≠ None → reachable secret (state_after es).
Proof.
  intros Hrun. exists es, (effects_of es). unfold state_after, effects_of.
  by destruct (run secret initial es) as [[??]|].
Qed.

(** The spec's second scenario: ids A and B are dispatched, the peer
    answers B first and then A; each caller gets its own result. *)
Example replies_out_of_order :
  let s := state_after (two_calls ++ [Message 1 (Parsed (reply_ok id_B (JStr "tabs")));
                                      Message 1 (Parsed (reply_ok id_A (JStr "pong")))]) in
  promises s !! 0 = Some (Fulfilled (JStr "pong"))
  ∧ promises s !! 2 = Some (Fulfilled (JStr "tabs"))
  ∧ pendingRequests s = ∅
  ∧ timers s = ∅.
Proof. vm_compute. done. Qed.

(** A failure reply rejects its caller with the peer's error message, and
    the other caller is still waiting, its timer scheduled. *)
Example failure_reply_rejects :
  let s := state_after (two_calls ++ [Message 1 (Parsed (reply_failed id_A "No such tab"))]) in
  promises s !! 0 = Some (Rejected (Error (JStr "No such tab")))
  ∧ promises s !! 2 = Some Pending
  ∧ pendingRequests s !! id_A = None
  ∧ pendingRequests s !! id_B = Some (ClearTimeoutThen 3 2)
  ∧ timers s !! 1 = None
  ∧ timers s !! 3 = Some {| timer_requestId := id_B; timer_reject := 2;
                            timer_timeout := 30000 |}.
Proof. vm_compute. done. Qed.

(** The spec's first scenario: ["ping"] with a timeout of 1000 ms, no
    reply; the timer fires; a reply that comes later changes nothing. *)
Example ping_times_out :
  let s := state_after (ping_sent ++ [TimerFired 1]) in
  promises s !! 0
    = Some (Rejected (Error (JStr "Request timeout after 1000ms")))
  ∧ pendingRequests s = ∅
  ∧ step secret s (Message 1 (Parsed (reply_ok id_A (JStr "pong"))))
    = Some (s, [received (reply_ok id_A (JStr "pong"))]).
Proof. vm_compute. done. Qed.

(** The close handler clears the slot whichever socket closed. *)
Lemma close_of_any_socket_clears_slot AUTH_TOKEN s ws :
  live s ws = true →
  ∃ s',
    step AUTH_TOKEN s (Close ws) = Some (s', [ConsoleError "Extension disconnected" []])
    ∧ extensionSocket s' = None
    ∧ ∀ ws', ws' ≠ ws → sockets s' !! ws' = sockets s !! ws'.
Proof.
  intros Hlive. simpl. rewrite Hlive. eexists. split; [done|]. simpl.
  split; [done|]. intros ws' Hne. by rewrite lookup_alter_ne.
Qed.

(** C3, as the code has it.  The claim: the right token makes the
    connection authenticated and active; a wrong token gets the failure
    response, the connection is closed, and the active slot stays unset, or
    unchanged when another connection is the active one.  The handler does
    all of that (see [auth_accepted], [auth_rejected]).  But closing the
    failing connection raises its ["close"] event, whose handler clears the
    slot without looking at which socket closed.  Here socket 1 has
    authenticated and is active; socket 2 presents a wrong token; the
    handler answers, calls [ws.close()], and the slot still holds socket 1;
    then socket 2's close event fires, and the slot is empty although
    socket 1 is open and authenticated.  The next dispatch is refused. *)
Theorem failed_auth_of_a_stranger_clears_the_active_slot :
  run secret initial stranger_closed
    = Some (state_after stranger_closed, effects_of stranger_closed)
  ∧ extensionSocket (state_after (peer_up ++ [Connection 2])) = Some 1
  ∧ step secret (state_after (peer_up ++ [Connection 2]))
      (Message 2 (Parsed (auth "guess")))
    = Some (state_after stranger,
            [received (auth "guess");
             WsSend 2 (auth_response false "Invalid authentication token");
             ConsoleError "Authentication failed: invalid token" [];
             WsClose 2])
  ∧ extensionSocket (state_after stranger) = Some 1
  ∧ sockets (state_after stranger) !! 2
    = Some {| authenticated := false; readyState := CLOSING |}
  ∧ step secret (state_after stranger) (Close 2)
    = Some (state_after stranger_closed, [ConsoleError "Extension disconnected" []])
  ∧ extensionSocket (state_after stranger_closed) = None
  ∧ sockets (state_after stranger_closed) !! 1
    = Some {| authenticated := true; readyState := OPEN |}
  ∧ ∃ s',
      sendCommandToExtension "ping" (JObj []) None 1700000000000 "0.5"
        (state_after stranger_closed) = (0, s', [])
      ∧ promises s' !! 0 = Some (Rejected (Error (JStr "Extension not connected"))).
Proof. vm_compute. repeat split. eexists. split; reflexivity. Qed.

(** C8 fails as stated: two dispatches that read the same millisecond and
    draw the same random number get the same id.  The first request is
    outstanding (promise 0 pending, timer 1 scheduled, entry in the table
    under its id); the second dispatch generates that id again and its
    entry takes the place of the first one's.  Both requests are then
    outstanding under one id, and the table holds the second only. *)
Lemma same_millisecond_same_random_reuses_live_id :
  pendingRequests (state_after ping_sent) !! id_A = Some (ClearTimeoutThen 1 0)
  ∧ promises (state_after ping_sent) !! 0 = Some Pending
  ∧ generates id_A same_reading = true
  ∧ step secret (state_after ping_sent) same_reading
    = Some (state_after colliding,
            [WsSend 1 (command_envelope id_A "listTabs" (JObj []))])
  ∧ promises (state_after colliding) !! 0 = Some Pending
  ∧ timers (state_after colliding) !! 1
    = Some {| timer_requestId := id_A; timer_reject := 0; timer_timeout := 1000 |}
  ∧ promises (state_after colliding) !! 2 = Some Pending
  ∧ timers (state_after colliding) !! 3
    = Some {| timer_requestId := id_A; timer_reject := 2; timer_timeout := 30000 |}
  ∧ pendingRequests (state_after colliding) !! id_A = Some (ClearTimeoutThen 3 2)
  ∧ size (pendingRequests (state_after colliding)) = 1.
Proof. vm_compute. repeat split. Qed.

(** In other words: it is not so that a dispatch never generates an id
    that is live in the table. *)
Lemma live_id_can_be_generated_again :
  ¬ ∀ s e s' out rid,
      reachable secret s → step secret s e = Some (s', out) →
      generates rid e = true → pendingRequests s !! rid = None.
Proof.
  intros Hnever.
  assert (pendingRequests (state_after ping_sent) !! id_A = None) as Habs.
  { eapply (Hnever _ same_reading).
    - apply state_after_reachable. by vm_compute.
    - reflexivity.
    - by vm_compute. }
  by vm_compute in Habs.
Qed.

End Runs.

(** ** The theorems at work on the scenarios *)

Section Instances.

Import Scenario.

(** Reply B arrives first, on the authenticated socket, while A and B are
    outstanding: B's promise is fulfilled, A's entry is as before. *)
Lemma reply_settles_only_its_request_witness :
  reachable secret (state_after two_calls)
  ∧ is_authenticated (state_after two_calls) 1 = true
  ∧ prop (reply_ok id_B (JStr "tabs")) "type" = JStr "response"
  ∧ prop (reply_ok id_B (JStr "tabs")) "requestId" = JStr id_B
  ∧ pendingRequests (state_after two_calls) !! id_B = Some (ClearTimeoutThen 3 2)
  ∧ ∃ s',
      onMessage secret 1 (Parsed (reply_ok id_B (JStr "tabs"))) (state_after two_calls)
        = (s', [received (reply_ok id_B (JStr "tabs"))])
      ∧ promises s' !! 2 = Some (Fulfilled (JStr "tabs"))
      ∧ pendingRequests s' !! id_B = None
      ∧ pendingRequests s' !! id_A = Some (ClearTimeoutThen 1 0)
      ∧ promises s' !! 0 = Some Pending.
Proof.
  assert (reachable secret (state_after two_calls)) as Hreach
    by (apply state_after_reachable; vm_compute; discriminate).
  assert (is_authenticated (state_after two_calls) 1 = true) as Hws
    by (vm_compute; reflexivity).
  assert (pendingRequests (state_after two_calls) !! id_B = Some (ClearTimeoutThen 3 2))
    as Hentry by (vm_compute; reflexivity).
  do 2 (split; [assumption|]). do 2 (split; [reflexivity|]). split; [assumption|].
  destruct (reply_settles_only_its_request secret (state_after two_calls) 1
              (reply_ok id_B (JStr "tabs")) id_B (ClearTimeoutThen 3 2)
              Hreach Hws eq_refl eq_refl Hentry)
    as (p & s' & Hrun & Hshape & _ & _ & Hok & _ & Hgone & _ & Hrest & Hothers & _).
  injection Hshape as _ <-.
  exists s'. split; [exact Hrun|]. split; [apply Hok; reflexivity|].
  split; [exact Hgone|].
  split; [rewrite Hrest by (vm_compute; discriminate); vm_compute; reflexivity|].
  rewrite Hothers by lia. vm_compute. reflexivity.
Defined.


(** Before any peer has connected. *)
Lemma dispatch_without_channel_is_refused_witness :
  extensionSocket initial = None
  ∧ ∃ s',
      sendCommandToExtension "ping" (JObj []) None 1700000000000 "0.5" initial
        = (0, s', [])
      ∧ promises s' !! 0 = Some (Rejected (Error (JStr "Extension not connected")))
      ∧ pendingRequests s' = ∅.
Proof.
  split; [reflexivity|].
  destruct (dispatch_without_channel_is_refused initial "ping" (JObj []) None
              1700000000000 "0.5" (or_introl eq_refl))
    as (s' & Hrun & Hrej & Htable & _).
  exists s'. split; [exact Hrun|]. split; [exact Hrej|exact Htable].
Defined.



(** Socket 2 authenticates while socket 1 is active with two requests
    outstanding; socket 1 then answers request A. *)
Lemma superseded_socket_still_resolves_witness :
  reachable secret (state_after second_socket)
  ∧ is_authenticated (state_after second_socket) 1 = true
  ∧ is_Some (sockets (state_after second_socket) !! 2)
  ∧ pendingRequests (state_after second_socket) !! id_A = Some (ClearTimeoutThen 1 0)
  ∧ ∃ s1 out1 s2,
      onMessage secret 2 (Parsed (auth secret)) (state_after second_socket) = (s1, out1)
      ∧ extensionSocket s1 = Some 2
      ∧ is_authenticated s1 1 = true
      ∧ onMessage secret 1 (Parsed (reply_ok id_A (JStr "pong"))) s1
        = (s2, [received (reply_ok id_A (JStr "pong"))])
      ∧ promises s2 !! 0 = Some (Fulfilled (JStr "pong"))
      ∧ pendingRequests s2 !! id_A = None.
Proof.
  assert (reachable secret (state_after second_socket)) as Hreach
    by (apply state_after_reachable; vm_compute; discriminate).
  assert (is_Some (sockets (state_after second_socket) !! 2)) as Hnew
    by (vm_compute; eexists; reflexivity).
  assert (pendingRequests (state_after second_socket) !! id_A
          = Some (ClearTimeoutThen 1 0)) as Hentry by (vm_compute; reflexivity).
  split; [assumption|]. split; [vm_compute; reflexivity|].
  do 2 (split; [assumption|]).
  destruct (superseded_socket_still_resolves secret (state_after second_socket)
              1 2 (auth secret) (reply_ok id_A (JStr "pong")) id_A
              (ClearTimeoutThen 1 0) Hreach ltac:(lia) eq_refl Hnew
              eq_refl eq_refl eq_refl eq_refl Hentry)
    as (s1 & out1 & p & s2 & Hhello & Hslot & _ & Hold & _ & _ & Hreply
        & Hshape & _ & Hok & Hgone & _).
  injection Hshape as _ <-.
  exists s1, out1, s2. repeat split; assumption.
Defined.

End Instances.

(** * Further properties of the relay *)

Section Gate.

Variable AUTH_TOKEN : string.

Implicit Types (s : Relay) (ws : Socket) (p t : Handle) (message : JsVal).

(** The handlers of replies and timers do not touch the slot or the
    sockets. *)
Lemma onResponse_sockets message s :
  extensionSocket (onResponse message s) = extensionSocket s
  ∧ sockets (onResponse message s) = sockets s.
Proof.
  unfold onResponse. destruct (get_pending s _) as [[rid pending]|]; [|done].
  destruct (truthy _), pending; simpl; unfold settle, clearTimeout; simpl;
    by repeat case_match.
Qed.

Lemma onTimeout_sockets t s :
  extensionSocket (onTimeout t s) = extensionSocket s
  ∧ sockets (onTimeout t s) = sockets s.
Proof.
  unfold onTimeout. destruct (timers s !! t); [|done]. simpl.
  destruct (pendingRequests s !! _); [|done].
  unfold settle. simpl. by repeat case_match.
Qed.

Lemma sendCommandToExtension_sockets command params timeout now random s :
  extensionSocket (sendCommandToExtension command params timeout now random s).1.2
    = extensionSocket s
  ∧ sockets (sendCommandToExtension command params timeout now random s).1.2 = sockets s.
Proof.
  destruct (connected s) as [ws|] eqn:Hc.
  - by rewrite (sendCommandToExtension_connected _ _ _ _ _ ws).
  - by rewrite sendCommandToExtension_disconnected.
Qed.

(** What a frame can do to the slot and the flags. *)
Lemma onMessage_sockets ws frame s :
  let s' := (onMessage AUTH_TOKEN ws frame s).1 in
  (presents_secret AUTH_TOKEN frame = true
   ∧ extensionSocket s' = Some ws
   ∧ sockets s' = alter (λ σ, {| authenticated := true; readyState := readyState σ |})
                    ws (sockets s))
  ∨ (presents_secret AUTH_TOKEN frame = false
     ∧ extensionSocket s' = extensionSocket s
     ∧ (sockets s' = sockets s
        ∨ sockets s' =
            alter (λ σ, {| authenticated := authenticated σ;
                           readyState := if decide (readyState σ = OPEN) then CLOSING
                                         else readyState σ |}) ws (sockets s))).
Proof.
  destruct frame as [|message]; simpl; [right; by eauto|].
  unfold onMessage.
  destruct (nullish message) eqn:Hnull.
  { right. destruct message; try done; simpl; by eauto. }
  destruct (is_str (prop message "type") "auth") eqn:Hty; simpl.
  - destruct (is_str (prop message "token") AUTH_TOKEN); simpl; [by left|].
    right. by eauto.
  - right. split; [done|].
    destruct (negb (is_authenticated s ws)); simpl; [by eauto|].
    destruct (_ && _); simpl; [|by eauto].
    destruct (onResponse_sockets message s) as [-> ->]. by eauto.
Qed.

Lemma Locked_initial : Locked initial.
Proof.
  by split.
Qed.

Lemma Locked_step s e s' out :
  Locked s → without_secret AUTH_TOKEN e = true →
  step AUTH_TOKEN s e = Some (s', out) →
  Locked s' ∧ forallb refusal out = true.
Proof.
  intros [Hslot Hflags Htable Htimers Hpromises] Hno Hstep.
  destruct e; simpl in Hstep, Hno.
  - destruct (sockets s !! ws) eqn:Hws; [done|].
    unfold onConnection in Hstep. simplify_eq. split; [|done].
    split; simpl; try done.
    intros ws'. specialize (Hflags ws'). unfold is_authenticated in *. simpl.
    destruct (decide (ws = ws')) as [->|?].
    + by rewrite lookup_insert_eq.
    + by rewrite lookup_insert_ne.
  - destruct (live s ws); [|done]. apply negb_true_iff in Hno.
    assert (Change s (onMessage AUTH_TOKEN ws frame s).1) as Hchange.
    { destruct frame as [|message]; [by apply Untouched|].
      apply Untouched; apply onMessage_not_response; intros ? [= <-];
        left; apply Hflags. }
    pose proof (onMessage_sockets ws frame s) as Hsock.
    assert (forallb refusal (onMessage AUTH_TOKEN ws frame s).2 = true) as Hout.
    { destruct frame as [|message]; [done|]. unfold onMessage. simpl in Hno.
      destruct (nullish message); [done|].
      destruct (is_str (prop message "type") "auth"); simpl in *.
      - by rewrite Hno.
      - by rewrite Hflags. }
    destruct (onMessage AUTH_TOKEN ws frame s) as [s1 out1]. simplify_eq.
    simpl in *. split; [|done].
    destruct Hsock as [(? & _)|(_ & Hslot' & Hsockets)]; [congruence|].
    assert (∀ ws', is_authenticated s' ws' = false) as Hflags'.
    { intros ws'. specialize (Hflags ws'). unfold is_authenticated in *.
      destruct Hsockets as [->| ->]; [done|].
      destruct (decide (ws = ws')) as [->|?].
      - rewrite lookup_alter_eq. by destruct (sockets s !! ws').
      - by rewrite lookup_alter_ne. }
    destruct Hchange as [Hq Ht Hp _|? ? ? Ht _ _ _ _ _|? Hq Ht Hp _];
      [|by rewrite Htimers, lookup_empty in Ht|].
    + split; [congruence|done|congruence|congruence|by rewrite Hp].
    + split; [congruence|done|congruence| |by rewrite Hp].
      rewrite Ht, Htimers. apply delete_empty.
  - destruct (live s ws); [|done]. unfold onClose in Hstep. simplify_eq.
    split; [|done]. split; simpl; try done.
    intros ws'. specialize (Hflags ws'). unfold is_authenticated in *. simpl.
    destruct (decide (ws = ws')) as [->|?].
    + rewrite lookup_alter_eq. by destruct (sockets s !! ws').
    + by rewrite lookup_alter_ne.
  - destruct (live s ws); [|done]. unfold onError in Hstep. by simplify_eq.
  - by rewrite Htimers, lookup_empty in Hstep.
  - rewrite sendCommandToExtension_disconnected in Hstep
      by (unfold connected; by rewrite Hslot).
    simplify_eq. split; [|done]. split; simpl; try done.
    intros p st [[<- <-]|[_ Hst]]%lookup_insert_Some; [done|]. by eapply Hpromises.
Qed.

(** X1. The token gate.  In any run from the start in which no frame is
    an auth message with the secret, no socket is ever authenticated, the
    active slot stays empty, the table and the timers stay empty, every
    promise a dispatch has returned is rejected with "Extension not
    connected", and the only things the relay ever sends are failure
    auth responses and not-authenticated notices: no command envelope
    leaves the relay. *)
Theorem without_the_secret_the_relay_stays_locked es : ∀ s out,
  run AUTH_TOKEN initial es = Some (s, out) →
  forallb (without_secret AUTH_TOKEN) es = true →
  Locked s ∧ forallb refusal out = true.
Proof.
  assert (∀ es s0 s out, Locked s0 → run AUTH_TOKEN s0 es = Some (s, out) →
            forallb (without_secret AUTH_TOKEN) es = true →
            Locked s ∧ forallb refusal out = true) as Hgen.
  { clear es. induction es as [|e es IH]; intros s0 s out HL Hrun Hno;
      simpl in Hrun, Hno.
    - by simplify_eq.
    - destruct (step AUTH_TOKEN s0 e) as [[s1 out1]|] eqn:Hstep; [|done].
      destruct (run AUTH_TOKEN s1 es) as [[s2 out2]|] eqn:Hrest; [|done].
      simplify_eq. apply andb_true_iff in Hno as [Hno1 Hno2].
      destruct (Locked_step s0 e s1 out1 HL Hno1 Hstep) as [HL1 Hout1].
      destruct (IH s1 s out2 HL1 Hrest Hno2) as [HL2 Hout2].
      split; [done|]. rewrite forallb_app. by rewrite Hout1, Hout2. }
  intros s out. apply Hgen, Locked_initial.
Qed.

End Gate.

Section Slot.

Variable AUTH_TOKEN : string.

Implicit Types (s : Relay) (ws : Socket) (p t : Handle) (message : JsVal).

Lemma SlotOk_step s e s' out :
  SlotOk s → step AUTH_TOKEN s e = Some (s', out) → SlotOk s'.
Proof.
  intros Hok Hstep. destruct e; simpl in Hstep.
  - destruct (sockets s !! ws) eqn:Hws; [done|].
    unfold onConnection in Hstep. simplify_eq.
    intros a Ha. simpl in *. destruct (Hok a Ha) as (σ & Hσ & ? & ?).
    exists σ. split; [|done]. rewrite lookup_insert_ne; [done|]. congruence.
  - unfold live in Hstep. destruct (sockets s !! ws) as [σ|] eqn:Hσ; [|done].
    destruct (negb _) eqn:Hlive; [|done].
    apply negb_true_iff, bool_decide_eq_false in Hlive.
    pose proof (onMessage_sockets AUTH_TOKEN ws frame s) as Hsock.
    destruct (onMessage AUTH_TOKEN ws frame s) as [s1 out1]. simplify_eq. simpl in *.
    intros a Ha.
    destruct Hsock as [(_ & Hslot & ->)|(_ & Hslot & [->| ->])].
    + rewrite Hslot in Ha. simplify_eq. rewrite lookup_alter_eq, Hσ. simpl. eauto.
    + rewrite Hslot in Ha. by apply Hok.
    + rewrite Hslot in Ha. destruct (Hok a Ha) as (σa & Hσa & ? & ?).
      destruct (decide (ws = a)) as [->|?].
      * rewrite lookup_alter_eq, Hσa. simpl. eexists. split; [done|].
        split; [done|]. by case_decide.
      * rewrite lookup_alter_ne by done. eauto.
  - destruct (live s ws); [|done]. unfold onClose in Hstep. simplify_eq.
    by intros a.
  - destruct (live s ws); [|done]. unfold onError in Hstep. by simplify_eq.
  - destruct (timers s !! t); [|done]. simplify_eq.
    destruct (onTimeout_sockets t s) as [Hslot Hsockets].
    intros a Ha. rewrite Hslot in Ha. rewrite Hsockets. by apply Hok.
  - pose proof (sendCommandToExtension_sockets command params timeout now random s)
      as [Hslot Hsockets].
    destruct (sendCommandToExtension command params timeout now random s) as [[??]?].
    simplify_eq. simpl in *.
    intros a Ha. rewrite Hslot in Ha. rewrite Hsockets. by apply Hok.
Qed.

Lemma SlotOk_reachable s : reachable AUTH_TOKEN s → SlotOk s.
Proof.
  intros (es & out & Hrun).
  assert (∀ es s0 s out, SlotOk s0 → run AUTH_TOKEN s0 es = Some (s, out) → SlotOk s)
    as Hgen.
  { clear. induction es as [|e es IH]; intros s0 s out Hok Hrun; simpl in Hrun.
    - by simplify_eq.
    - destruct (step AUTH_TOKEN s0 e) as [[s1 out1]|] eqn:Hstep; [|done].
      destruct (run AUTH_TOKEN s1 es) as [[s2 out2]|] eqn:Hrest; [|done].
      simplify_eq. eapply IH; [|done]. by eapply SlotOk_step. }
  eapply Hgen; [|done]. by intros a.
Qed.

(** X2. In every reachable state the active slot, when it is set, names
    a socket that has authenticated and is not closed; and every envelope a
    dispatch sends goes to the socket in the slot, which is authenticated
    and open at that moment.  The relay never sends a command to a socket
    that has not presented the secret. *)
Theorem commands_go_to_an_authenticated_open_socket
    s command params timeout now random ws payload :
  reachable AUTH_TOKEN s →
  WsSend ws payload ∈ (sendCommandToExtension command params timeout now random s).2 →
  extensionSocket s = Some ws
  ∧ (∃ σ, sockets s !! ws = Some σ ∧ authenticated σ = true ∧ readyState σ = OPEN)
  ∧ payload = command_envelope (requestId now random) command params.
Proof.
  intros Hreach Hin.
  destruct (connected s) as [ws'|] eqn:Hc.
  - rewrite (sendCommandToExtension_connected _ _ _ _ _ ws') in Hin by done.
    simpl in Hin. apply list_elem_of_singleton in Hin. injection Hin as <- ->.
    apply connected_Some in Hc as (Hslot & σ & Hσ & Hopen).
    split; [done|]. split; [|done].
    destruct (SlotOk_reachable s Hreach ws Hslot) as (σ' & Hσ' & Hauth & _).
    exists σ. by simplify_eq.
  - rewrite sendCommandToExtension_disconnected in Hin by done.
    simpl in Hin. by apply not_elem_of_nil in Hin.
Qed.

(** A dispatch followed by the reply that echoes its id. *)
Lemma dispatch_reply_compose
    s command params timeout now random ws p s1 out sender message :
  reachable AUTH_TOKEN s →
  connected s = Some ws →
  sendCommandToExtension command params timeout now random s = (p, s1, out) →
  is_authenticated s sender = true →
  prop message "type" = JStr "response" →
  ∃ envelope,
    out = [WsSend ws envelope]
    ∧ prop envelope "command" = JStr command
    ∧ prop envelope "params" = params
    ∧ prop envelope "id" = JStr (requestId now random)
    ∧ pendingRequests s1 !! requestId now random = Some (ClearTimeoutThen (S p) p)
    ∧ (prop message "requestId" = prop envelope "id" →
       ∃ s2,
         onMessage AUTH_TOKEN sender (Parsed message) s1 = (s2, [received message])
         ∧ promises s2 !! p =
             Some (if truthy (prop message "success")
                   then Fulfilled (prop message "data")
                   else Rejected (Error (or_else (prop message "error")
                                                 (JStr "Unknown error"))))
         ∧ timers s2 = timers s
         ∧ pendingRequests s2 = delete (requestId now random) (pendingRequests s)
         ∧ (pendingRequests s !! requestId now random = None →
            pendingRequests s2 = pendingRequests s)
         ∧ extensionSocket s2 = extensionSocket s
         ∧ sockets s2 = sockets s).
Proof.
  intros Hreach Hc Hsend Hsender Hty.
  pose proof (reachable_Inv AUTH_TOKEN s Hreach) as HI.
  pose proof (Inv_sendCommandToExtension s command params timeout now random HI) as HI1.
  rewrite Hsend in HI1. simpl in HI1.
  rewrite (sendCommandToExtension_connected _ _ _ _ _ ws) in Hsend by done.
  injection Hsend as <- <- <-.
  eexists. split; [done|]. do 3 (split; [done|]).
  split; [simpl; by rewrite lookup_insert_eq|].
  intros Hid. simpl in Hid.
  destruct (reply_routes AUTH_TOKEN _ sender message (requestId now random)
              (ClearTimeoutThen (S (fresh s)) (fresh s)) HI1)
    as (p' & [= <-] & Hp & ->); [done|done|done|simpl; by rewrite lookup_insert_eq|].
  eexists. split; [done|]. simpl.
  split; [by rewrite lookup_insert_eq|].
  assert (timers s !! S (fresh s) = None) as Hfree.
  { destruct (timers s !! S (fresh s)) as [cb|] eqn:Ht; [|done].
    destruct (inv_timers s HI _ _ Ht) as (_ & ? & _). lia. }
  split; [by rewrite delete_insert_id|].
  split; [by rewrite delete_insert_eq|].
  split; [|done].
  intros Habs. by rewrite delete_insert_id.
Qed.

(** X3. Dispatch and reply compose.  After a dispatch from a reachable
    state on the open active socket, the envelope sent carries the command,
    the parameters and, as [id], the key of the new table entry; a reply
    envelope that echoes this id as [requestId], on any authenticated
    socket, settles the promise the dispatch returned (fulfilled with [data]
    when [success] is truthy), removes the entry and clears the timer: the
    timers are as before the dispatch, and so is the table when the id was
    not in it. *)
Theorem dispatch_then_reply_round_trip
    s command params timeout now random ws p s1 out sender message :
  reachable AUTH_TOKEN s →
  connected s = Some ws →
  sendCommandToExtension command params timeout now random s = (p, s1, out) →
  is_authenticated s sender = true →
  prop message "type" = JStr "response" →
  ∃ envelope,
    out = [WsSend ws envelope]
    ∧ prop envelope "command" = JStr command
    ∧ prop envelope "params" = params
    ∧ prop envelope "id" = JStr (requestId now random)
    ∧ pendingRequests s1 !! requestId now random = Some (ClearTimeoutThen (S p) p)
    ∧ (prop message "requestId" = prop envelope "id" →
       ∃ s2,
         onMessage AUTH_TOKEN sender (Parsed message) s1 = (s2, [received message])
         ∧ promises s2 !! p =
             Some (if truthy (prop message "success")
                   then Fulfilled (prop message "data")
                   else Rejected (Error (or_else (prop message "error")
                                                 (JStr "Unknown error"))))
         ∧ timers s2 = timers s
         ∧ pendingRequests s2 = delete (requestId now random) (pendingRequests s)
         ∧ (pendingRequests s !! requestId now random = None →
            pendingRequests s2 = pendingRequests s)
         ∧ extensionSocket s2 = extensionSocket s
         ∧ sockets s2 = sockets s).
Proof.
  intros Hreach Hc Hsend Hsender Hty.
  exact (dispatch_reply_compose s command params timeout now random ws p s1 out
           sender message Hreach Hc Hsend Hsender Hty).
Qed.

(** X4. On an authenticated socket, a decoded message that is neither an
    auth message nor a reply that hits the table is only logged: a message
    of another type, a reply without [requestId] or with an empty, zero or
    otherwise falsy one, a reply whose [requestId] is not a string, and a
    reply whose id is not in the table all leave the state as it is and
    send nothing. *)
Theorem other_messages_are_only_logged s ws message :
  is_authenticated s ws = true →
  nullish message = false →
  is_str (prop message "type") "auth" = false →
  is_str (prop message "type") "response" = false
  ∨ truthy (prop message "requestId") = false
  ∨ (∀ rid, prop message "requestId" = JStr rid → pendingRequests s !! rid = None) →
  onMessage AUTH_TOKEN ws (Parsed message) s = (s, [received message]).
Proof.
  intros Hws Hnull Hauth Hcase. unfold onMessage.
  rewrite Hnull, Hauth, Hws. simpl.
  destruct Hcase as [->|[Hid|Hmiss]]; [done|by rewrite Hid, andb_false_r|].
  destruct (_ && _); [|done]. by rewrite onResponse_miss.
Qed.

(** X5. A wrong token on a socket that has authenticated before does not
    take its flag away: the socket gets the failure response and
    [ws.close()], it stays authenticated while it is closing, and the slot
    is not written.  When that socket is the active one, it remains in the
    slot, no longer open, and dispatches are refused. *)
Theorem wrong_token_keeps_the_flag s ws σ message :
  sockets s !! ws = Some σ →
  authenticated σ = true →
  prop message "type" = JStr "auth" →
  is_str (prop message "token") AUTH_TOKEN = false →
  ∃ s',
    onMessage AUTH_TOKEN ws (Parsed message) s =
      (s', [received message;
            WsSend ws (auth_response false "Invalid authentication token");
            ConsoleError "Authentication failed: invalid token" [];
            WsClose ws])
    ∧ is_authenticated s' ws = true
    ∧ extensionSocket s' = extensionSocket s
    ∧ (readyState σ = OPEN →
       sockets s' !! ws = Some {| authenticated := true; readyState := CLOSING |})
    ∧ (extensionSocket s = Some ws → readyState σ = OPEN → connected s' = None).
Proof.
  intros Hσ Hauth Hty Htok.
  rewrite auth_rejected by done. eexists. split; [done|].
  destruct (auth_rejected_state s ws σ Hσ) as (Hslot & Hws & _).
  unfold is_authenticated. rewrite Hws. simpl.
  split; [done|]. split; [done|]. split.
  - intros ->. by rewrite Hauth.
  - intros Hactive Hopen. unfold connected. rewrite Hslot, Hactive, Hws. simpl.
    by rewrite Hopen.
Qed.

(** X6. In every reachable state each table entry is the wrapped pair of
    one dispatch: its key is not empty, its promise is still pending, and
    its timer is scheduled under the same id, so the timeout can fire; and
    no two keys hold the same entry. *)
Theorem every_entry_has_its_deadline s rid pending :
  reachable AUTH_TOKEN s →
  pendingRequests s !! rid = Some pending →
  rid ≠ ""
  ∧ (∃ p ms,
       pending = ClearTimeoutThen (S p) p
       ∧ promises s !! p = Some Pending
       ∧ timers s !! S p = Some {| timer_requestId := rid; timer_reject := p;
                                   timer_timeout := ms |}
       ∧ ∃ s', step AUTH_TOKEN s (TimerFired (S p)) = Some (s', [])
               ∧ promises s' !! p = Some (Rejected (timeout_error ms))
               ∧ pendingRequests s' !! rid = None)
  ∧ ∀ rid', pendingRequests s !! rid' = Some pending → rid' = rid.
Proof.
  intros Hreach Hentry.
  pose proof (reachable_Inv AUTH_TOKEN s Hreach) as HI.
  destruct (inv_pending s HI _ _ Hentry) as (Hrid & p & ms & -> & Ht & Hp).
  split; [done|]. split.
  - exists p, ms. do 3 (split; [done|]).
    eexists. simpl. rewrite Ht. split; [done|].
    rewrite (onTimeout_hit (S p) _ _ s Ht Hentry Hp). simpl.
    split; [by rewrite lookup_insert_eq|by rewrite lookup_delete_eq].
  - intros rid' Hentry'. symmetry. by eapply Inv_entries_apart.
Qed.

End Slot.

(** * The secret, from the generator to the relay *)

Module TokenFacts.
Import Startup Token.

Lemma split_free (c : ascii) (text : string) :
  free_of c text = true → split c text = [text].
Proof.
  induction text as [|d rest IH]; simpl; [done|].
  intros [Hd Hrest]%andb_true_iff.
  apply negb_true_iff, bool_decide_eq_false in Hd.
  rewrite decide_False by done. by rewrite IH.
Qed.

Lemma split_at (c : ascii) (a b : string) :
  free_of c a = true → split c (a +:+ String c b) = a :: split c b.
Proof.
  induction a as [|d a IH]; simpl.
  - intros _. by rewrite decide_True.
  - intros [Hd Ha]%andb_true_iff.
    apply negb_true_iff, bool_decide_eq_false in Hd.
    rewrite decide_False by done. by rewrite IH.
Qed.

Lemma split_token_arg (v : string) :
  split "=" ("--token=" +:+ v) = "--token" :: split "=" v.
Proof.
  change ("--token=" +:+ v) with ("--token" +:+ String "=" v).
  by rewrite (split_at "=" "--token" v).
Qed.

Lemma find_first {A} (f : A → bool) (pre post : list A) (x : A) :
  forallb (λ a, negb (f a)) pre = true → f x = true →
  List.find f (pre ++ x :: post) = Some x.
Proof.
  intros Hpre Hx. induction pre as [|a pre IH]; simpl in *.
  - by rewrite Hx.
  - apply andb_true_iff in Hpre as [Ha Hpre]. apply negb_true_iff in Ha.
    rewrite Ha. by apply IH.
Qed.

Lemma startsWith_token_arg (v : string) : startsWith ("--token=" +:+ v) "--token=" = true.
Proof. unfold startsWith. by destruct v. Qed.

Lemma AUTH_TOKEN_of_token_arg node script pre v post :
  forallb (λ arg, negb (startsWith arg "--token=")) pre = true →
  AUTH_TOKEN (node :: script :: pre ++ ("--token=" +:+ v) :: post) = head (split "=" v).
Proof.
  intros Hpre. unfold AUTH_TOKEN, tokenArg, args.
  change (drop 2 (node :: script :: pre ++ ("--token=" +:+ v) :: post))
    with (pre ++ ("--token=" +:+ v) :: post).
  rewrite (find_first _ pre post _ Hpre (startsWith_token_arg v)).
  rewrite split_token_arg. by destruct (split "=" v).
Qed.

(** X7. How the secret is read from the command line.  The first
    argument after the script that starts with [--token=] decides, whatever
    comes after it; the secret is what stands between that [=] and the next
    one.  So a value without [=] is read back exactly, and a value with [=]
    in it is cut at its first [=]. *)
Theorem token_is_read_up_to_the_next_equals node script pre v post :
  forallb (λ arg, negb (startsWith arg "--token=")) pre = true →
  AUTH_TOKEN (node :: script :: pre ++ ("--token=" +:+ v) :: post) = head (split "=" v)
  ∧ (free_of "=" v = true →
     AUTH_TOKEN (node :: script :: pre ++ ("--token=" +:+ v) :: post) = Some v)
  ∧ (∀ a b, v = a +:+ "=" +:+ b → free_of "=" a = true →
     AUTH_TOKEN (node :: script :: pre ++ ("--token=" +:+ v) :: post) = Some a).
Proof.
  intros Hpre.
  pose proof (AUTH_TOKEN_of_token_arg node script pre v post Hpre) as Hread.
  split; [done|]. rewrite Hread. split.
  - intros Hfree. by rewrite split_free.
  - intros a b -> Hfree. change (a +:+ "=" +:+ b) with (a +:+ String "=" b).
    by rewrite (split_at "=" a b).
Qed.

Lemma hex_of_byte_free (b : Byte.byte) : free_of "=" (hex_of_byte b) = true.
Proof. by destruct b. Qed.

Lemma free_of_app (c : ascii) (a b : string) :
  free_of c (a +:+ b) = free_of c a && free_of c b.
Proof. induction a as [|d a IH]; simpl; [done|]. by rewrite IH, andb_assoc. Qed.

Lemma toHex_free (bytes : list Byte.byte) : free_of "=" (toHex bytes) = true.
Proof.
  induction bytes as [|b rest IH]; [done|].
  simpl toHex. by rewrite free_of_app, hex_of_byte_free, IH.
Qed.

Lemma toHex_length (bytes : list Byte.byte) :
  String.length (toHex bytes) = 2 * length bytes.
Proof.
  induction bytes as [|b rest IH]; [done|].
  change (String.length (toHex (b :: rest))) with (S (S (String.length (toHex rest)))).
  rewrite IH. simpl length. lia.
Qed.

Lemma fromHex_hex_of_byte (b : Byte.byte) (rest : string) :
  fromHex (hex_of_byte b +:+ rest) = b :: fromHex rest.
Proof. by destruct b. Qed.

Lemma fromHex_toHex (bytes : list Byte.byte) : fromHex (toHex bytes) = bytes.
Proof.
  induction bytes as [|b rest IH]; [done|].
  simpl toHex. by rewrite fromHex_hex_of_byte, IH.
Qed.

(** X8. The generated token reaches the relay unchanged.  For the 32
    bytes the generator draws, the token is 64 characters long, has no [=]
    in it, and determines the bytes (no two draws give the same token); and
    a relay started with the argument the generator prints,
    [--token=<token>], reads exactly this token as its secret, finds it
    non-empty and goes on to serve instead of exiting. *)
Theorem generated_token_round_trip node script (randomBytes : list Byte.byte) :
  length randomBytes = 32 →
  String.length (generateToken randomBytes) = 64
  ∧ free_of "=" (generateToken randomBytes) = true
  ∧ fromHex (generateToken randomBytes) = randomBytes
  ∧ AUTH_TOKEN [node; script; config_arg (generateToken randomBytes)]
    = Some (generateToken randomBytes)
  ∧ no_token (AUTH_TOKEN [node; script; config_arg (generateToken randomBytes)]) = false
  ∧ boot [node; script; config_arg (generateToken randomBytes)]
    = NewWebSocketServer WS_PORT :: serve.
Proof.
  intros Hlen. unfold generateToken, config_arg.
  pose proof (toHex_length randomBytes) as Hl. rewrite Hlen in Hl.
  pose proof (toHex_free randomBytes) as Hfree.
  pose proof (AUTH_TOKEN_of_token_arg node script [] (toHex randomBytes) [] eq_refl)
    as Hread.
  simpl app in Hread. rewrite split_free in Hread by done. simpl in Hread.
  split; [done|]. split; [done|]. split; [apply fromHex_toHex|].
  split; [done|].
  assert (no_token (Some (toHex randomBytes)) = false) as Hno.
  { simpl. apply bool_decide_eq_false. intros Heq. rewrite Heq in Hl. done. }
  unfold boot. rewrite Hread. split; [done|]. by rewrite Hno.
Qed.

End TokenFacts.

(** * The tool-call handler *)

Section ToolFacts.

Variable AUTH_TOKEN : string.
Variable JSON_stringify : JsVal → JsVal.
Variable ToString : JsVal → string.

Implicit Types (s : Relay) (ws : Socket) (p t : Handle) (message : JsVal).

Lemma tool_command_advertised name args :
  name ∈ tool_names → is_Some (tool_command name args).
Proof.
  unfold tool_names. intros Hin.
  repeat (apply elem_of_cons in Hin as [->|Hin]; [by eexists|]).
  by apply not_elem_of_nil in Hin.
Qed.

Lemma tool_command_known name args command params :
  tool_command name args = Some (command, params) → name ∈ tool_names.
Proof.
  unfold tool_command, tool_names. intros Hcmd.
  repeat case_decide; [subst name; set_solver..|done].
Qed.

Lemma tool_command_unknown name args :
  name ∉ tool_names → tool_command name args = None.
Proof.
  intros Hnot. destruct (tool_command name args) as [[command params]|] eqn:Hcmd;
    [|done].
  by apply tool_command_known in Hcmd.
Qed.

(** An armed timer whose entry is still in the table after a run rejects
    its promise with the timeout it was armed with. *)
Lemma armed_timer_rejects s1 es s2 out2 p cb :
  Inv s1 →
  timers s1 !! S p = Some cb →
  run AUTH_TOKEN s1 es = Some (s2, out2) →
  pendingRequests s2 !! timer_requestId cb = Some (ClearTimeoutThen (S p) p) →
  ∃ s3,
    step AUTH_TOKEN s2 (TimerFired (S p)) = Some (s3, [])
    ∧ promises s3 !! p = Some (Rejected (timeout_error (timer_timeout cb)))
    ∧ pendingRequests s3 !! timer_requestId cb = None.
Proof.
  intros HI1 Ht1 Hrun Hentry.
  pose proof (Inv_run AUTH_TOKEN es _ s2 out2 HI1 Hrun) as HI2.
  assert (timers s2 !! S p = Some cb) as Ht2.
  { destruct (inv_pending s2 HI2 _ _ Hentry) as (_ & p' & ms & [= <-] & Ht & _).
    destruct (run_timer_stable AUTH_TOKEN es _ s2 out2 (S p) cb HI1 Hrun Ht1)
      as [?|Hgone]; [done|congruence]. }
  destruct (inv_timers s2 HI2 _ _ Ht2) as ([= Hp] & _ & Hp2).
  eexists. simpl. rewrite Ht2. split; [done|].
  rewrite (onTimeout_hit (S p) cb _ s2 Ht2 Hentry Hp2). simpl.
  rewrite <- Hp. split; [by rewrite lookup_insert_eq|by rewrite lookup_delete_eq].
Qed.

(** X9. The tools the server lists are the tools the call handler knows:
    a name has a case in the handler's switch exactly when it is the name
    of an entry of [tools].  For any other name the handler dispatches
    nothing, leaves the relay as it is, and answers with the error result
    "Error: Unknown tool: <name>". *)
Theorem listed_tools_are_the_handled_tools name args now random s :
  (name ∈ tool_names ↔ is_Some (tool_command name args))
  ∧ (name ∉ tool_names →
     onCallTool ToString name args now random s
     = (Replied (ErrorContent ("Error: Unknown tool: " +:+ name)), s, [])).
Proof.
  split.
  - split; [apply tool_command_advertised|].
    intros [[command params] Hcmd]. by eapply tool_command_known.
  - intros Hnot. unfold onCallTool. by rewrite tool_command_unknown.
Qed.

(** X10. A tool call while no peer is connected.  The handler still goes
    through [sendCommandToExtension], which rejects on the spot: nothing is
    sent, the table and the timers are untouched, and the handler resumes
    into its [catch] with the result "Error: Extension not connected",
    marked as an error. *)
Theorem tool_call_without_peer name args now random s :
  name ∈ tool_names →
  connected s = None →
  ∃ s',
    onCallTool ToString name args now random s = (Awaiting (fresh s), s', [])
    ∧ promises s' !! fresh s = Some (Rejected not_connected_error)
    ∧ onCallTool_resumed JSON_stringify ToString name args
        (Rejected not_connected_error)
      = Some (ErrorContent "Error: Extension not connected")
    ∧ pendingRequests s' = pendingRequests s
    ∧ timers s' = timers s.
Proof.
  intros [[command params] Hcmd]%(tool_command_advertised name args) Hc.
  unfold onCallTool. rewrite Hcmd.
  rewrite sendCommandToExtension_disconnected by done.
  eexists. split; [done|]. simpl. by rewrite lookup_insert_eq.
Qed.

(** X11. Every tool call waits 30 seconds at most.  The handler never
    passes a timeout, so each command it dispatches is armed with the
    default; when the command's entry is still in the table as its timer
    fires, the handler resumes into its [catch] and the tool result is the
    error "Error: Request timeout after 30000ms". *)
Theorem tool_call_times_out_after_30_seconds
    name args now random s ws p s1 out es s2 out2 :
  reachable AUTH_TOKEN s →
  connected s = Some ws →
  onCallTool ToString name args now random s = (Awaiting p, s1, out) →
  run AUTH_TOKEN s1 es = Some (s2, out2) →
  pendingRequests s2 !! requestId now random = Some (ClearTimeoutThen (S p) p) →
  ∃ s3,
    timers s1 !! S p = Some {| timer_requestId := requestId now random;
                               timer_reject := p; timer_timeout := 30000 |}
    ∧ step AUTH_TOKEN s2 (TimerFired (S p)) = Some (s3, [])
    ∧ promises s3 !! p = Some (Rejected (timeout_error 30000))
    ∧ onCallTool_resumed JSON_stringify ToString name args
        (Rejected (timeout_error 30000))
      = Some (ErrorContent "Error: Request timeout after 30000ms").
Proof.
  intros Hreach Hc Hcall Hrun Hentry.
  pose proof (reachable_Inv AUTH_TOKEN s Hreach) as HI.
  unfold onCallTool in Hcall.
  destruct (tool_command name args) as [[command params]|]; [|done].
  pose proof (Inv_sendCommandToExtension s command params None now random HI) as HI1.
  rewrite (sendCommandToExtension_connected _ _ _ _ _ ws) in Hcall, HI1 by done.
  injection Hcall as <- <- <-. simpl in HI1.
  set (cb := {| timer_requestId := requestId now random; timer_reject := fresh s;
                timer_timeout := 30000 |}).
  destruct (armed_timer_rejects _ es s2 out2 (fresh s) cb HI1) as (s3 & Hfire & Hp & _);
    [simpl; by rewrite lookup_insert_eq|done|done|].
  exists s3. split; [simpl; by rewrite lookup_insert_eq|]. by repeat split.
Qed.

(** X12. A tool call answered by the peer.  For every tool but the
    screenshot, once the peer's reply with the command's id has arrived on
    an authenticated socket, the handler's result is the text
    [JSON.stringify(data, null, 2)] when the reply says success, and
    otherwise the error result "Error: <error>" with the peer's error
    message, or "Error: Unknown error" when the reply carries none. *)
Theorem tool_call_answered name args now random s ws p s1 out sender message :
  reachable AUTH_TOKEN s →
  connected s = Some ws →
  name ≠ "browser_screenshot" →
  onCallTool ToString name args now random s = (Awaiting p, s1, out) →
  is_authenticated s sender = true →
  prop message "type" = JStr "response" →
  prop message "requestId" = JStr (requestId now random) →
  ∃ s2 o,
    onMessage AUTH_TOKEN sender (Parsed message) s1 = (s2, [received message])
    ∧ promises s2 !! p = Some o
    ∧ (truthy (prop message "success") = true →
       onCallTool_resumed JSON_stringify ToString name args o
       = Some (TextContent (JSON_stringify (prop message "data"))))
    ∧ (truthy (prop message "success") = false →
       (∀ text, prop message "error" = JStr text → text ≠ "" →
          onCallTool_resumed JSON_stringify ToString name args o
          = Some (ErrorContent ("Error: " +:+ text)))
       ∧ (truthy (prop message "error") = false →
          onCallTool_resumed JSON_stringify ToString name args o
          = Some (ErrorContent "Error: Unknown error"))).
Proof.
  intros Hreach Hc Hname Hcall Hsender Hty Hid.
  unfold onCallTool in Hcall.
  destruct (tool_command name args) as [[command params]|]; [|done].
  destruct (sendCommandToExtension command params None now random s)
    as [[p' s'] out'] eqn:Hsend.
  injection Hcall as <- <- <-.
  destruct (dispatch_reply_compose AUTH_TOKEN s command params None now random ws
              p' s' out' sender message Hreach Hc Hsend Hsender Hty)
    as (envelope & _ & _ & _ & Henv & _ & Hreply).
  destruct Hreply as (s2 & Hmsg & Hp & _); [by rewrite Hid, Henv|].
  eexists s2, _. split; [done|]. split; [exact Hp|].
  split.
  - intros ->. simpl. by rewrite decide_False.
  - intros ->. split.
    + intros text -> Htext. unfold or_else. simpl.
      by rewrite bool_decide_eq_false_2.
    + intros Herr. unfold or_else. by rewrite Herr.
Qed.

(** X13. The screenshot is taken before its save request is checked.
    A [browser_screenshot] call with [saveToFile] set and no usable [cwd]
    (missing, empty or not a string) dispatches the [screenshot] command
    like any other, with the arguments as parameters; only after the peer
    has answered with success does the handler find [cwd] missing, and the
    result is then the error "Error: cwd parameter is required when
    saveToFile is true", whatever the peer returned. *)
Theorem screenshot_is_taken_before_cwd_is_checked
    args now random s ws p s1 out sender message :
  reachable AUTH_TOKEN s →
  connected s = Some ws →
  saveToFile args = true →
  cwd_unusable args = true →
  onCallTool ToString "browser_screenshot" args now random s = (Awaiting p, s1, out) →
  is_authenticated s sender = true →
  prop message "type" = JStr "response" →
  prop message "requestId" = JStr (requestId now random) →
  truthy (prop message "success") = true →
  out = [WsSend ws (command_envelope (requestId now random) "screenshot" args)]
  ∧ ∃ s2,
      onMessage AUTH_TOKEN sender (Parsed message) s1 = (s2, [received message])
      ∧ promises s2 !! p = Some (Fulfilled (prop message "data"))
      ∧ onCallTool_resumed JSON_stringify ToString "browser_screenshot" args
          (Fulfilled (prop message "data"))
        = Some (ErrorContent "Error: cwd parameter is required when saveToFile is true").
Proof.
  intros Hreach Hc Hsave Hcwd Hcall Hsender Hty Hid Hok.
  assert (or_else args (JObj []) = args) as Hargs.
  { unfold or_else. unfold saveToFile in Hsave. by destruct args. }
  unfold onCallTool in Hcall. simpl in Hcall. rewrite Hargs in Hcall.
  destruct (sendCommandToExtension "screenshot" args None now random s)
    as [[p' s'] out'] eqn:Hsend.
  injection Hcall as <- <- <-.
  destruct (dispatch_reply_compose AUTH_TOKEN s "screenshot" args None now random ws
              p' s' out' sender message Hreach Hc Hsend Hsender Hty)
    as (envelope & Hout & _ & _ & Henv & _ & Hreply).
  rewrite (sendCommandToExtension_connected _ _ _ _ _ ws) in Hsend by done.
  injection Hsend as _ _ <-. split; [done|].
  destruct Hreply as (s2 & Hmsg & Hp & _); [by rewrite Hid, Henv|].
  rewrite Hok in Hp.
  exists s2. split; [done|]. split; [done|].
  simpl. by rewrite Hsave, Hcwd.
Qed.

End ToolFacts.

(** * The extension *)

Module ExtensionFacts.
Import Extension.



Section Protocol.

Variable AUTH_TOKEN : string.
Variable perform : Command → JsVal → Outcome.
Variable ToString : JsVal → string.

(** [handleCommand] returns one of two shapes. *)
Lemma handleCommand_shape message :
  (∃ data, handleCommand perform ToString message
           = JObj [("success", JBool true); ("data", data)])
  ∨ (∃ text, handleCommand perform ToString message
             = JObj [("success", JBool false); ("error", text)]).
Proof.
  unfold handleCommand.
  destruct (command_named _) as [[]|]; try destruct (perform _ _); eauto.
Qed.

(** X15. Every command the relay's tools dispatch is one the extension
    knows.  For each tool of the call handler, the command it sends has a
    case in [handleCommand]'s switch, so the extension runs the command
    function and answers with what it returned, or with its error message
    when it threw; it is never answered with "Unknown command".  A command
    outside the switch is answered with success false and the error
    "Unknown command: <command>", and [handleCommand] does not throw. *)
Theorem tool_commands_are_known_to_the_extension name args command params message :
  tool_command name args = Some (command, params) →
  prop message "command" = JStr command →
  (∃ c,
     command_named (JStr command) = Some c
     ∧ handleCommand perform ToString message =
         match perform c (match c with
                          | getCurrentTab | listTabs => JUndefined
                          | _ => prop message "params"
                          end) with
         | Done data => JObj [("success", JBool true); ("data", data)]
         | Threw text => JObj [("success", JBool false); ("error", text)]
         end)
  ∧ ∀ other unknown,
      prop other "command" = JStr unknown →
      command_named (JStr unknown) = None →
      handleCommand perform ToString other
      = JObj [("success", JBool false);
              ("error", JStr ("Unknown command: " +:+ unknown))].
Proof.
  intros Hcmd Hcommand. split.
  - unfold tool_command in Hcmd. unfold handleCommand. rewrite Hcommand.
    repeat case_decide; simplify_eq; eexists; (split; [reflexivity|]); done.
  - intros other unknown Hother Hnone. unfold handleCommand.
    by rewrite Hother, Hnone.
Qed.


End Protocol.

Section Handshake.

Variable AUTH_TOKEN : string.

(** X17. The handshake ends with both sides agreeing.  When its socket
    opens, an extension that holds a token sends one auth message with it;
    the relay, on a socket that has not authenticated, answers with an
    auth response, and the extension takes the response in.  After that
    the extension's [authenticated] and the relay's flag for the socket are
    both true when the token is the relay's secret, and both false
    otherwise, in which case both sides have called [close()] on their
    socket. *)
Theorem handshake_ends_in_agreement (x : Ext) sock token s ws :
  authToken x = Some token →
  token ≠ "" →
  connecting sock x →
  is_authenticated s ws = false →
  ∃ x1 hello,
    step x (Opened sock)
    = Some (x1, [Console "Connected to MCP server, attempting authentication...";
                 Send sock hello])
    ∧ hello = JObj [("type", JStr "auth"); ("token", JStr token)]
    ∧ ∀ incoming,
        carries ["type"; "token"] hello incoming →
        ∃ s1 reply rest,
          onMessage AUTH_TOKEN ws (Parsed incoming) s
          = (s1, received incoming :: WsSend ws reply :: rest)
          ∧ is_authenticated s1 ws
            = (bool_decide (token = AUTH_TOKEN) && bool_decide (is_Some (sockets s !! ws)))
          ∧ (token = AUTH_TOKEN → extensionSocket s1 = Some ws)
          ∧ (token ≠ AUTH_TOKEN →
             extensionSocket s1 = extensionSocket s ∧ WsClose ws ∈ rest)
          ∧ ∀ decoded,
              carries ["type"; "success"] reply decoded →
              ∃ x2 out2,
                onmessage decoded x1 = (x2, out2, Finished)
                ∧ authenticated x2 = bool_decide (token = AUTH_TOKEN)
                ∧ (token ≠ AUTH_TOKEN → Close sock ∈ out2).
Proof.
  intros Htoken Hne [Hws Hsock] Hflag.
  eexists _, _. split.
  { simpl. rewrite decide_True by done. unfold onopen, sendToServer, open_socket, hasToken.
    simpl. rewrite Htoken, Hws. simpl. rewrite lookup_insert_eq.
    rewrite decide_True by done. by rewrite bool_decide_eq_false_2. }
  split; [done|].
  intros incoming Hin.
  apply Forall_cons in Hin as [Hi_type Hin].
  apply Forall_cons in Hin as [Hi_tok _]. simpl in Hi_type, Hi_tok.
  destruct (decide (token = AUTH_TOKEN)) as [->|Hwrong].
  - rewrite auth_accepted by done.
    eexists _, _, _. split; [done|].
    split.
    { unfold is_authenticated. simpl. rewrite lookup_alter_eq.
      destruct (sockets s !! ws) as [σ|]; simpl; repeat case_bool_decide; try done;
        try (exfalso; by eauto); try by (exfalso; match goal with H : is_Some None |- _ => destruct H end). }
    split; [done|]. split; [done|].
    intros decoded Hback.
    apply Forall_cons in Hback as [Hb_type Hback].
    apply Forall_cons in Hback as [Hb_ok _]. simpl in Hb_type, Hb_ok.
    unfold onmessage. rewrite Hb_type, Hb_ok. simpl.
    eexists _, _. split; [done|]. simpl.
    split; [by case_bool_decide|done].
  - rewrite auth_rejected;
      [|done|rewrite Hi_tok; simpl; by rewrite bool_decide_eq_false_2].
    eexists _, _, _. split; [done|].
    split.
    { unfold is_authenticated in *. simpl. rewrite lookup_alter_eq.
      destruct (sockets s !! ws) as [σ|]; simpl in *;
        repeat case_bool_decide; done. }
    split; [done|].
    split; [intros _; split; [done|set_solver]|].
    intros decoded Hback.
    apply Forall_cons in Hback as [Hb_type Hback].
    apply Forall_cons in Hback as [Hb_ok _]. simpl in Hb_type, Hb_ok.
    unfold onmessage. rewrite Hb_type, Hb_ok. simpl. rewrite Hws.
    eexists _, _. split; [done|]. simpl.
    split; [by case_bool_decide|]. intros _. set_solver.
Qed.

End Handshake.

(** X18. Changing the token while connected can leave the extension
    disconnected for good.  The popup sets a new token; the storage
    callback closes the old socket and creates a new one.  When the old
    socket's close event arrives before the new socket opens, its handler
    empties [ws], the variable that by then holds the new socket.  The new
    socket then opens, but [sendToServer] finds [ws] empty and sends no auth
    message; [onopen] has cleared the reconnect interval the close handler
    had set.  The worker ends with an open socket it does not know,
    [authenticated] false, nothing sent, and no reconnect scheduled. *)
Theorem token_change_can_strand_the_extension (x : Ext) old token :
  ws x = Some old →
  created x !! old = Some OPEN →
  created x !! next x = None →
  reconnectInterval x = None →
  ∃ x' out,
    run x [PopupSetToken token; TokenSaved; Closed old; Opened (next x)] = Some (x', out)
    ∧ created x' !! next x = Some OPEN
    ∧ created x' !! old = Some CLOSED
    ∧ ws x' = None
    ∧ authToken x' = Some token
    ∧ authenticated x' = false
    ∧ existsb is_send out = false
    ∧ reconnectInterval x' = None
    ∧ step x' Tick = None
    ∧ (∀ message, sendToServer message x' = [Console "WebSocket is not connected"])
    ∧ prop (getStatus x') "connected" = JNull.
Proof.
  intros Hws Hold Hnew Hnone.
  assert (old ≠ next x) as Hne by (intros ->; congruence).
  assert (next x ≠ old) as Hne' by done.
  set (x1 := set_saving (S (saving x)) (set_authToken (Some token) x)).
  assert (step x (PopupSetToken token) = Some (x1, [StorageSet (Some token)])) as H1
    by done.
  set (x2 := {| ws := Some (next x); reconnectInterval := None;
                authToken := Some token; authenticated := false;
                created := <[next x := CONNECTING]> (<[old := CLOSING]> (created x));
                saving := saving x; next := S (next x) |}).
  assert (step x1 TokenSaved
          = Some (x2, [Console "Auth token saved"; Close old;
                       Console "Attempting to connect to MCP server...";
                       SendResponse (JObj [("success", JBool true)])])) as H2.
  { unfold step, onTokenSaved, connectWebSocket, closing. simpl. rewrite Hws. simpl.
    assert (alter (λ r, match r with CONNECTING | OPEN => CLOSING | _ => r end)
              old (created x) = <[old := CLOSING]> (created x)) as ->.
    { apply map_eq. intros i. destruct (decide (i = old)) as [->|?].
      - by rewrite lookup_alter_eq, lookup_insert_eq, Hold.
      - by rewrite lookup_alter_ne, lookup_insert_ne. }
    unfold x2, set_saving, set_next, set_ws, set_created, set_authenticated, x1,
      set_authToken. simpl. by rewrite Hnone. }
  set (x3 := {| ws := None; reconnectInterval := Some (S (next x));
                authToken := Some token; authenticated := false;
                created := <[old := CLOSED]> (created x2);
                saving := saving x; next := S (S (next x)) |}).
  assert (step x2 (Closed old) = Some (x3, [Console "Disconnected from MCP server"]))
    as H3.
  { unfold step. simpl. rewrite lookup_insert_ne, lookup_insert_eq by done. done. }
  set (x4 := {| ws := None; reconnectInterval := None;
                authToken := Some token; authenticated := false;
                created := <[next x := OPEN]> (created x3);
                saving := saving x; next := S (S (next x)) |}).
  assert (∃ out4, step x3 (Opened (next x)) = Some (x4, out4)
                  ∧ existsb is_send out4 = false) as (out4 & H4 & Hquiet).
  { unfold step. simpl.
    rewrite lookup_insert_ne, lookup_insert_eq by done.
    rewrite decide_True by done.
    unfold onopen, sendToServer, open_socket, hasToken. simpl.
    eexists. split; [reflexivity|]. by destruct (negb _). }
  exists x4, ([StorageSet (Some token)]
              ++ [Console "Auth token saved"; Close old;
                  Console "Attempting to connect to MCP server...";
                  SendResponse (JObj [("success", JBool true)])]
              ++ [Console "Disconnected from MCP server"] ++ out4 ++ []).
  split.
  { unfold run. rewrite H1, H2, H3, H4. done. }
  split; [simpl; by rewrite lookup_insert_eq|].
  split.
  { simpl. rewrite lookup_insert_ne by done. by rewrite lookup_insert_eq. }
  split; [done|]. split; [done|]. split; [done|].
  split.
  { rewrite !existsb_app. simpl. by rewrite Hquiet. }
  repeat split.
Qed.

End ExtensionFacts.

(** * The further properties at work *)

Section MoreInstances.

Import Scenario Example.

(** Nobody presents the secret. *)
Lemma without_the_secret_the_relay_stays_locked_witness :
  run secret initial no_secret = Some (state_after no_secret, effects_of no_secret)
  ∧ forallb (without_secret secret) no_secret = true
  ∧ Locked (state_after no_secret)
  ∧ forallb refusal (effects_of no_secret) = true.
Proof.
  assert (run secret initial no_secret = Some (state_after no_secret, effects_of no_secret))
    as Hrun by (vm_compute; reflexivity).
  assert (forallb (without_secret secret) no_secret = true) as Hno
    by (vm_compute; reflexivity).
  do 2 (split; [assumption|]).
  exact (without_the_secret_the_relay_stays_locked secret no_secret _ _ Hrun Hno).
Defined.

(** The envelope of ["ping"] goes to socket 1. *)
Lemma commands_go_to_an_authenticated_open_socket_witness :
  reachable secret (state_after peer_up)
  ∧ WsSend 1 (command_envelope id_A "ping" (JObj []))
      ∈ (sendCommandToExtension "ping" (JObj []) (Some 1000%N) 1700000000000 "0.5"
           (state_after peer_up)).2
  ∧ extensionSocket (state_after peer_up) = Some 1
  ∧ ∃ σ, sockets (state_after peer_up) !! 1 = Some σ
         ∧ authenticated σ = true ∧ readyState σ = OPEN.
Proof.
  assert (reachable secret (state_after peer_up)) as Hreach
    by (apply state_after_reachable; vm_compute; discriminate).
  assert (WsSend 1 (command_envelope id_A "ping" (JObj []))
            ∈ (sendCommandToExtension "ping" (JObj []) (Some 1000%N) 1700000000000 "0.5"
                 (state_after peer_up)).2) as Hin
    by (rewrite (sendCommandToExtension_connected _ _ _ _ _ 1)
          by (vm_compute; reflexivity); simpl; constructor).
  do 2 (split; [assumption|]).
  destruct (commands_go_to_an_authenticated_open_socket secret (state_after peer_up)
              "ping" (JObj []) (Some 1000%N) 1700000000000 "0.5" 1 _ Hreach Hin)
    as (Hslot & Hsock & _).
  split; assumption.
Defined.

(** ["ping"] is dispatched and answered. *)
Lemma dispatch_then_reply_round_trip_witness :
  reachable secret (state_after peer_up)
  ∧ connected (state_after peer_up) = Some 1
  ∧ sendCommandToExtension "ping" (JObj []) (Some 1000%N) 1700000000000 "0.5"
      (state_after peer_up)
    = (0, state_after ping_sent, [WsSend 1 (command_envelope id_A "ping" (JObj []))])
  ∧ is_authenticated (state_after peer_up) 1 = true
  ∧ ∃ s2,
      onMessage secret 1 (Parsed (reply_ok id_A (JStr "pong"))) (state_after ping_sent)
      = (s2, [received (reply_ok id_A (JStr "pong"))])
      ∧ promises s2 !! 0 = Some (Fulfilled (JStr "pong"))
      ∧ timers s2 = timers (state_after peer_up)
      ∧ pendingRequests s2 = pendingRequests (state_after peer_up).
Proof.
  assert (reachable secret (state_after peer_up)) as Hreach
    by (apply state_after_reachable; vm_compute; discriminate).
  split; [assumption|]. do 3 (split; [vm_compute; reflexivity|]).
  destruct (dispatch_then_reply_round_trip secret (state_after peer_up)
              "ping" (JObj []) (Some 1000%N) 1700000000000 "0.5" 1 0
              (state_after ping_sent) [WsSend 1 (command_envelope id_A "ping" (JObj []))]
              1 (reply_ok id_A (JStr "pong")) Hreach)
    as (envelope & Hout & _ & _ & Hid & _ & Hreply);
    [vm_compute; reflexivity..|].
  destruct Hreply as (s2 & Hmsg & Hp & Ht & _ & Hq & _);
    [rewrite Hid; reflexivity|].
  exists s2. split; [exact Hmsg|]. split; [exact Hp|]. split; [exact Ht|].
  apply Hq. vm_compute. reflexivity.
Defined.

(** A message of a type the relay does not know. *)
Lemma other_messages_are_only_logged_witness :
  is_authenticated (state_after peer_up) 1 = true
  ∧ onMessage secret 1 (Parsed (JObj [("type", JStr "hello")])) (state_after peer_up)
    = (state_after peer_up, [received (JObj [("type", JStr "hello")])]).
Proof.
  split; [vm_compute; reflexivity|].
  apply (other_messages_are_only_logged secret (state_after peer_up) 1
           (JObj [("type", JStr "hello")]));
    [vm_compute; reflexivity|reflexivity|reflexivity|left; reflexivity].
Defined.

(** The active peer sends an auth message with a wrong token. *)
Lemma wrong_token_keeps_the_flag_witness :
  sockets (state_after peer_up) !! 1 = Some {| authenticated := true; readyState := OPEN |}
  ∧ extensionSocket (state_after peer_up) = Some 1
  ∧ ∃ s',
      (onMessage secret 1 (Parsed (auth "guess")) (state_after peer_up)).1 = s'
      ∧ is_authenticated s' 1 = true
      ∧ extensionSocket s' = Some 1
      ∧ connected s' = None.
Proof.
  assert (sockets (state_after peer_up) !! 1
          = Some {| authenticated := true; readyState := OPEN |}) as Hσ
    by (vm_compute; reflexivity).
  assert (extensionSocket (state_after peer_up) = Some 1) as Hslot
    by (vm_compute; reflexivity).
  do 2 (split; [assumption|]).
  destruct (wrong_token_keeps_the_flag secret (state_after peer_up) 1 _ (auth "guess")
              Hσ eq_refl eq_refl eq_refl)
    as (s' & Hmsg & Hflag & Hslot' & _ & Hc).
  exists s'. split; [by rewrite Hmsg|]. split; [exact Hflag|].
  split; [by rewrite Hslot'|]. by apply Hc.
Defined.

(** The entry of [listTabs] while ["ping"] is outstanding too. *)
Lemma every_entry_has_its_deadline_witness :
  reachable secret (state_after two_calls)
  ∧ pendingRequests (state_after two_calls) !! id_B = Some (ClearTimeoutThen 3 2)
  ∧ id_B ≠ ""
  ∧ ∀ rid', pendingRequests (state_after two_calls) !! rid' = Some (ClearTimeoutThen 3 2) →
            rid' = id_B.
Proof.
  assert (reachable secret (state_after two_calls)) as Hreach
    by (apply state_after_reachable; vm_compute; discriminate).
  assert (pendingRequests (state_after two_calls) !! id_B = Some (ClearTimeoutThen 3 2))
    as Hentry by (vm_compute; reflexivity).
  do 2 (split; [assumption|]).
  destruct (every_entry_has_its_deadline secret (state_after two_calls) id_B
              (ClearTimeoutThen 3 2) Hreach Hentry) as (Hrid & _ & Hone).
  split; assumption.
Defined.

(** The first [--token=] argument, cut at its second [=]. *)
Lemma token_is_read_up_to_the_next_equals_witness :
  forallb (λ arg, negb (Startup.startsWith arg "--token=")) ["--verbose"] = true
  ∧ Startup.AUTH_TOKEN argv = Some "abc".
Proof.
  split; [reflexivity|].
  destruct (TokenFacts.token_is_read_up_to_the_next_equals "node" "index.js"
              ["--verbose"] "abc=def" ["--token=zzz"] eq_refl) as (_ & _ & Hcut).
  exact (Hcut "abc" "def" eq_refl eq_refl).
Defined.

(** Thirty-two bytes drawn by the generator. *)
Lemma generated_token_round_trip_witness :
  length drawn = 32
  ∧ Startup.AUTH_TOKEN ["node"; "index.js"; Token.config_arg (Token.generateToken drawn)]
    = Some (Token.generateToken drawn)
  ∧ Token.fromHex (Token.generateToken drawn) = drawn.
Proof.
  split; [reflexivity|].
  destruct (TokenFacts.generated_token_round_trip "node" "index.js" drawn eq_refl)
    as (_ & _ & Hback & Hread & _).
  split; assumption.
Defined.

(** A tool call before any peer has connected. *)
Lemma tool_call_without_peer_witness :
  "browser_list_tabs" ∈ tool_names
  ∧ connected initial = None
  ∧ ∃ s',
      onCallTool to_string "browser_list_tabs" JUndefined 1700000000001 "0.25" initial
      = (Awaiting 0, s', [])
      ∧ onCallTool_resumed stringify to_string "browser_list_tabs" JUndefined
          (Rejected not_connected_error)
        = Some (ErrorContent "Error: Extension not connected").
Proof.
  assert ("browser_list_tabs" ∈ tool_names) as Hname
    by (unfold tool_names; repeat constructor).
  split; [assumption|]. split; [reflexivity|].
  destruct (tool_call_without_peer stringify to_string "browser_list_tabs" JUndefined
              1700000000001 "0.25" initial Hname eq_refl)
    as (s' & Hcall & _ & Hresult & _).
  exists s'. split; assumption.
Defined.

(** [browser_list_tabs] is called, a second socket connects, and the timer
    fires. *)
Lemma tool_call_times_out_after_30_seconds_witness :
  reachable secret (state_after peer_up)
  ∧ connected (state_after peer_up) = Some 1
  ∧ onCallTool to_string "browser_list_tabs" JUndefined 1700000000001 "0.25"
      (state_after peer_up)
    = (Awaiting 0, state_after listTabs_sent,
       [WsSend 1 (command_envelope id_B "listTabs" (JObj []))])
  ∧ run secret (state_after listTabs_sent) [Connection 2]
    = Some (state_after (listTabs_sent ++ [Connection 2]),
            [ConsoleError "Extension attempting to connect..." []])
  ∧ pendingRequests (state_after (listTabs_sent ++ [Connection 2])) !! id_B
    = Some (ClearTimeoutThen 1 0)
  ∧ ∃ s3,
      step secret (state_after (listTabs_sent ++ [Connection 2])) (TimerFired 1)
      = Some (s3, [])
      ∧ promises s3 !! 0 = Some (Rejected (timeout_error 30000)).
Proof.
  assert (reachable secret (state_after peer_up)) as Hreach
    by (apply state_after_reachable; vm_compute; discriminate).
  split; [assumption|]. do 4 (split; [vm_compute; reflexivity|]).
  destruct (tool_call_times_out_after_30_seconds secret stringify to_string
              "browser_list_tabs" JUndefined 1700000000001 "0.25" (state_after peer_up)
              1 0 (state_after listTabs_sent)
              [WsSend 1 (command_envelope id_B "listTabs" (JObj []))]
              [Connection 2] (state_after (listTabs_sent ++ [Connection 2]))
              [ConsoleError "Extension attempting to connect..." []]
              Hreach)
    as (s3 & _ & Hfire & Hp & _); [vm_compute; reflexivity..|].
  exists s3. split; assumption.
Defined.

(** [browser_list_tabs] is called and the peer answers with a failure. *)
Lemma tool_call_answered_witness :
  reachable secret (state_after peer_up)
  ∧ connected (state_after peer_up) = Some 1
  ∧ onCallTool to_string "browser_list_tabs" JUndefined 1700000000001 "0.25"
      (state_after peer_up)
    = (Awaiting 0, state_after listTabs_sent,
       [WsSend 1 (command_envelope id_B "listTabs" (JObj []))])
  ∧ ∃ s2 o,
      onMessage secret 1 (Parsed (reply_failed id_B "No tab")) (state_after listTabs_sent)
      = (s2, [received (reply_failed id_B "No tab")])
      ∧ promises s2 !! 0 = Some o
      ∧ onCallTool_resumed stringify to_string "browser_list_tabs" JUndefined o
        = Some (ErrorContent "Error: No tab").
Proof.
  assert (reachable secret (state_after peer_up)) as Hreach
    by (apply state_after_reachable; vm_compute; discriminate).
  split; [assumption|]. do 2 (split; [vm_compute; reflexivity|]).
  destruct (tool_call_answered secret stringify to_string
              "browser_list_tabs" JUndefined 1700000000001 "0.25" (state_after peer_up)
              1 0 (state_after listTabs_sent)
              [WsSend 1 (command_envelope id_B "listTabs" (JObj []))]
              1 (reply_failed id_B "No tab") Hreach)
    as (s2 & o & Hmsg & Hp & _ & Hfail);
    [vm_compute; reflexivity|discriminate|vm_compute; reflexivity..|].
  exists s2, o. split; [exact Hmsg|]. split; [exact Hp|].
  destruct (Hfail eq_refl) as [Htext _].
  apply (Htext "No tab"); [reflexivity|discriminate].
Defined.

(** A screenshot to be saved, without [cwd]. *)
Lemma screenshot_is_taken_before_cwd_is_checked_witness :
  reachable secret (state_after peer_up)
  ∧ connected (state_after peer_up) = Some 1
  ∧ saveToFile save_args = true
  ∧ cwd_unusable save_args = true
  ∧ onCallTool to_string "browser_screenshot" save_args 1700000000001 "0.25"
      (state_after peer_up)
    = (Awaiting 0, state_after screenshot_sent,
       [WsSend 1 (command_envelope id_B "screenshot" save_args)])
  ∧ ∃ s2,
      onMessage secret 1 (Parsed (reply_ok id_B (JStr "data:image/png;base64,AAAA")))
        (state_after screenshot_sent)
      = (s2, [received (reply_ok id_B (JStr "data:image/png;base64,AAAA"))])
      ∧ promises s2 !! 0 = Some (Fulfilled (JStr "data:image/png;base64,AAAA"))
      ∧ onCallTool_resumed stringify to_string "browser_screenshot" save_args
          (Fulfilled (JStr "data:image/png;base64,AAAA"))
        = Some (ErrorContent "Error: cwd parameter is required when saveToFile is true").
Proof.
  assert (reachable secret (state_after peer_up)) as Hreach
    by (apply state_after_reachable; vm_compute; discriminate).
  split; [assumption|]. split; [vm_compute; reflexivity|].
  do 2 (split; [reflexivity|]). split; [vm_compute; reflexivity|].
  destruct (screenshot_is_taken_before_cwd_is_checked secret stringify to_string
              save_args 1700000000001 "0.25" (state_after peer_up)
              1 0 (state_after screenshot_sent)
              [WsSend 1 (command_envelope id_B "screenshot" save_args)]
              1 (reply_ok id_B (JStr "data:image/png;base64,AAAA")) Hreach)
    as (_ & s2 & Hmsg & Hp & Hresult); [vm_compute; reflexivity..|].
  exists s2. split; [exact Hmsg|]. split; [exact Hp|exact Hresult].
Defined.

(** [browser_click] sends ["click"], which the extension runs. *)
Lemma tool_commands_are_known_to_the_extension_witness :
  tool_command "browser_click" (JObj [("selector", JStr "#go")])
  = Some ("click", JObj [("selector", JStr "#go")])
  ∧ ∃ c,
      Extension.command_named (JStr "click") = Some c
      ∧ Extension.handleCommand echo to_string
          (command_envelope id_A "click" (JObj [("selector", JStr "#go")]))
        = JObj [("success", JBool true);
                ("data", JArr [JObj [("selector", JStr "#go")]])].
Proof.
  split; [reflexivity|].
  destruct (ExtensionFacts.tool_commands_are_known_to_the_extension echo to_string
              "browser_click" (JObj [("selector", JStr "#go")]) "click"
              (JObj [("selector", JStr "#go")])
              (command_envelope id_A "click" (JObj [("selector", JStr "#go")]))
              eq_refl eq_refl) as ((c & Hc & Hrun) & _).
  exists c. split; [exact Hc|]. rewrite Hrun.
  injection Hc as <-. reflexivity.
Defined.


(** The worker holds the relay's secret. *)
Lemma handshake_ends_in_agreement_witness :
  Extension.authToken (worker_after (Some secret) [Extension.Load]) = Some secret
  ∧ secret ≠ ""
  ∧ Extension.connecting 0 (worker_after (Some secret) [Extension.Load])
  ∧ is_authenticated (state_after [Connection 1]) 1 = false
  ∧ ∃ x1,
      Extension.step (worker_after (Some secret) [Extension.Load]) (Extension.Opened 0)
      = Some (x1, [Extension.Console "Connected to MCP server, attempting authentication...";
                   Extension.Send 0 (auth secret)])
      ∧ ∃ s1 reply rest,
          onMessage secret 1 (Parsed (auth secret)) (state_after [Connection 1])
          = (s1, received (auth secret) :: WsSend 1 reply :: rest)
          ∧ is_authenticated s1 1 = true
          ∧ ∃ x2 out2,
              Extension.onmessage reply x1 = (x2, out2, Extension.Finished)
              ∧ Extension.authenticated x2 = true.
Proof.
  assert (secret ≠ "") as Hne by discriminate.
  assert (Extension.connecting 0 (worker_after (Some secret) [Extension.Load])) as Hcon
    by (split; vm_compute; reflexivity).
  split; [reflexivity|]. do 2 (split; [assumption|]). split; [reflexivity|].
  destruct (ExtensionFacts.handshake_ends_in_agreement secret
              (worker_after (Some secret) [Extension.Load]) 0 secret
              (state_after [Connection 1]) 1 eq_refl Hne Hcon eq_refl)
    as (x1 & hello & Hopen & -> & Hrelay).
  exists x1. split; [exact Hopen|].
  destruct (Hrelay (auth secret)) as (s1 & reply & rest & Hmsg & Hflag & _ & _ & Hext);
    [repeat constructor|].
  exists s1, reply, rest. split; [exact Hmsg|]. split; [by rewrite Hflag|].
  destruct (Hext reply) as (x2 & out2 & Hin & Hauth & _); [repeat constructor|].
  exists x2, out2. split; [exact Hin|]. by rewrite Hauth.
Defined.

(** The token is changed while the worker is connected. *)
Lemma token_change_can_strand_the_extension_witness :
  Extension.ws (worker_after (Some "old") [Extension.Load; Extension.Opened 0]) = Some 0
  ∧ Extension.created (worker_after (Some "old") [Extension.Load; Extension.Opened 0]) !! 0
    = Some OPEN
  ∧ ∃ x' out,
      Extension.run (worker_after (Some "old") [Extension.Load; Extension.Opened 0])
        [Extension.PopupSetToken secret; Extension.TokenSaved; Extension.Closed 0;
         Extension.Opened 1] = Some (x', out)
      ∧ Extension.created x' !! 1 = Some OPEN
      ∧ Extension.ws x' = None
      ∧ existsb Extension.is_send out = false
      ∧ Extension.step x' Extension.Tick = None.
Proof.
  do 2 (split; [vm_compute; reflexivity|]).
  destruct (ExtensionFacts.token_change_can_strand_the_extension
              (worker_after (Some "old") [Extension.Load; Extension.Opened 0]) 0 secret)
    as (x' & out & Hrun & Hnew & _ & Hws & _ & _ & Hquiet & _ & Htick & _);
    [vm_compute; reflexivity..|].
  exists x', out. repeat split; assumption.
Defined.

End MoreInstances.
